(** * Photo editor front end: snapshot history, mask surfaces, edit controller

    A shallow embedding of the [App] component (App.tsx): the React state
    and refs become one record, every callback becomes a function on that
    record, and a handler that awaits the image service is split at its
    [await] into the part that runs on the click and the part that runs
    when the service answers. *)

From Stdlib Require Import String Ascii.
From Stdlib Require Import List ZArith NArith QArith Qround Bool Arith Lia.
Import ListNotations.

Local Close Scope Q_scope.
Local Open Scope nat_scope.

Set Implicit Arguments.

(** ** The few JavaScript built-ins the component relies on *)

Module JS.

(** Relative index resolution of [Array.prototype.slice]. *)
Definition relIndex (len k : Z) : Z :=
  if (k <? 0)%Z then Z.max (len + k) 0 else Z.min k len.

(** [l.slice(start, end)]. *)
Definition slice {A} (l : list A) (start end_ : Z) : list A :=
  let len := Z.of_nat (length l) in
  let from := relIndex len start in
  let to := relIndex len end_ in
  firstn (Z.to_nat (to - from)) (skipn (Z.to_nat from) l).

(** [l[i]]: [undefined] (here [None]) outside the array. *)
Definition index {A} (l : list A) (i : Z) : option A :=
  if (i <? 0)%Z then None else nth_error l (Z.to_nat i).

(** [l.push(x)] and [l.pop()]: both work at the end of the array. *)
Definition push {A} (l : list A) (x : A) : list A := l ++ [x].

Definition pop {A} (l : list A) : list A * option A :=
  match rev l with
  | [] => ([], None)
  | x :: r => (rev r, Some x)
  end.

(** [l.some(p)]. *)
Definition some {A} (p : A -> bool) (l : list A) : bool := existsb p l.

(** White space removed by [String.prototype.trim], on the ASCII range. *)
Definition isWhiteSpace (c : ascii) : bool :=
  match nat_of_ascii c with
  | 9 | 10 | 11 | 12 | 13 | 32 => true
  | _ => false
  end.

Fixpoint trimStart (s : list ascii) : list ascii :=
  match s with
  | c :: r => if isWhiteSpace c then trimStart r else s
  | [] => []
  end.

Definition trim (s : string) : string :=
  string_of_list_ascii
    (rev (trimStart (rev (trimStart (list_ascii_of_string s))))).

(** Truthiness of a string: only the empty string is falsy. *)
Definition truthy (s : string) : bool :=
  match s with EmptyString => false | String _ _ => true end.

(** [Math.round]: the nearest integer, halves going up.  Numbers are
    taken as exact rationals. *)
Definition Math_round (q : Q) : Z := Qfloor (q + (1 # 2))%Q.

End JS.

(** ** Data model *)

(** An image blob; the component never looks inside one. *)
Record File := mkFile { fileName : string; fileBody : string }.

Inductive Tab :=
  Retouch | Magicfill | Freestyle | Combine | Faceswap | Adjust | Filters | Crop.

Definition Tab_eqb (a b : Tab) : bool :=
  match a, b with
  | Retouch, Retouch | Magicfill, Magicfill | Freestyle, Freestyle
  | Combine, Combine | Faceswap, Faceswap | Adjust, Adjust
  | Filters, Filters | Crop, Crop => true
  | _, _ => false
  end.

Inductive Placement :=
  Blend | Overlay | TopLeft | TopRight | BottomLeft | BottomRight.

(** One RGBA pixel, each channel a byte. *)
Record Pixel := mkPixel { R : N; G : N; B : N; A : N }.

Definition transparent : Pixel := mkPixel 0 0 0 0.
Definition black : Pixel := mkPixel 0 0 0 255.
Definition white : Pixel := mkPixel 255 255 255 255.

(** [ImageData]: a size and the flat [Uint8ClampedArray] of channel bytes,
    four per pixel, row by row. *)
Record ImageData := mkImageData { iwidth : nat; iheight : nat; data : list N }.

(** A canvas element with its 2D context: the bitmap, row by row, and the
    current path. *)
Record Canvas := mkCanvas {
  width : nat;
  height : nat;
  pixels : list Pixel;
  path : list (Q * Q)
}.

(** The displayed [<img>]: intrinsic and layout sizes. *)
Record HTMLImage := mkImage {
  naturalWidth : nat;
  naturalHeight : nat;
  clientWidth : nat;
  clientHeight : nat
}.

Record PixelCrop := mkCrop { cropX : Q; cropY : Q; cropW : Q; cropH : Q }.

(** The loading messages (the text shown is Thai; only which one matters). *)
Inductive Busy := BusyRetouch | BusyMagicFill | BusyFreestyle.

(** What the service (or decoding its answer) reported on failure. *)
Definition Failure := string.

Inductive EditContext := CtxRetouch | CtxMagicFill | CtxFreestyle.

(** The user-visible error messages. *)
Inductive ErrorMsg :=
| ErrNoImageLoaded                      (* no image loaded to edit *)
| ErrNoPrompt                           (* please describe your edit *)
| ErrNoHotspot                          (* please click on the image *)
| ErrPaintFirst                         (* please paint the area first *)
| ErrFormatted (c : EditContext) (e : Failure). (* formatErrorMessage(err, c) *)

(** The per-mode mask state: the component keeps one such group of state
    variables and refs for the magic-fill tab and one for the freestyle
    tab, and picks between them by [activeTab]. *)
Record MaskState := mkMask {
  brushSize : Z;
  isErasing : bool;
  isMaskDrawn : bool;
  maskCanvasRef : option Canvas;
  isDrawingRef : bool;
  maskHistoryRef : list ImageData;
  canUndoMask : bool
}.

Record AppState := mkApp {
  history : list File;
  historyIndex : Z;
  prompt : string;
  loadingMessage : option Busy;
  error : option ErrorMsg;
  editHotspot : option (Z * Z);
  displayHotspot : option (Q * Q);
  activeTab : Tab;
  secondaryImage : option File;
  crop : option PixelCrop;
  completedCrop : option PixelCrop;
  imgRef : option HTMLImage;
  magicFillPrompt : string;
  magicFillMask : MaskState;
  freestyleMask : MaskState;
  combinePlacement : Placement
}.

(** State setters ([setHistory], [setError], ...): each replaces one field. *)
Definition setHistory (v : list File) (s : AppState) : AppState :=
  mkApp v (historyIndex s) (prompt s) (loadingMessage s) (error s) (editHotspot s) (displayHotspot s) (activeTab s) (secondaryImage s) (crop s) (completedCrop s) (imgRef s) (magicFillPrompt s) (magicFillMask s) (freestyleMask s) (combinePlacement s).
Definition setHistoryIndex (v : Z) (s : AppState) : AppState :=
  mkApp (history s) v (prompt s) (loadingMessage s) (error s) (editHotspot s) (displayHotspot s) (activeTab s) (secondaryImage s) (crop s) (completedCrop s) (imgRef s) (magicFillPrompt s) (magicFillMask s) (freestyleMask s) (combinePlacement s).
Definition setPrompt (v : string) (s : AppState) : AppState :=
  mkApp (history s) (historyIndex s) v (loadingMessage s) (error s) (editHotspot s) (displayHotspot s) (activeTab s) (secondaryImage s) (crop s) (completedCrop s) (imgRef s) (magicFillPrompt s) (magicFillMask s) (freestyleMask s) (combinePlacement s).
Definition setLoadingMessage (v : option Busy) (s : AppState) : AppState :=
  mkApp (history s) (historyIndex s) (prompt s) v (error s) (editHotspot s) (displayHotspot s) (activeTab s) (secondaryImage s) (crop s) (completedCrop s) (imgRef s) (magicFillPrompt s) (magicFillMask s) (freestyleMask s) (combinePlacement s).
Definition setError (v : option ErrorMsg) (s : AppState) : AppState :=
  mkApp (history s) (historyIndex s) (prompt s) (loadingMessage s) v (editHotspot s) (displayHotspot s) (activeTab s) (secondaryImage s) (crop s) (completedCrop s) (imgRef s) (magicFillPrompt s) (magicFillMask s) (freestyleMask s) (combinePlacement s).
Definition setEditHotspot (v : option (Z * Z)) (s : AppState) : AppState :=
  mkApp (history s) (historyIndex s) (prompt s) (loadingMessage s) (error s) v (displayHotspot s) (activeTab s) (secondaryImage s) (crop s) (completedCrop s) (imgRef s) (magicFillPrompt s) (magicFillMask s) (freestyleMask s) (combinePlacement s).
Definition setDisplayHotspot (v : option (Q * Q)) (s : AppState) : AppState :=
  mkApp (history s) (historyIndex s) (prompt s) (loadingMessage s) (error s) (editHotspot s) v (activeTab s) (secondaryImage s) (crop s) (completedCrop s) (imgRef s) (magicFillPrompt s) (magicFillMask s) (freestyleMask s) (combinePlacement s).
Definition setActiveTab (v : Tab) (s : AppState) : AppState :=
  mkApp (history s) (historyIndex s) (prompt s) (loadingMessage s) (error s) (editHotspot s) (displayHotspot s) v (secondaryImage s) (crop s) (completedCrop s) (imgRef s) (magicFillPrompt s) (magicFillMask s) (freestyleMask s) (combinePlacement s).
Definition setSecondaryImage (v : option File) (s : AppState) : AppState :=
  mkApp (history s) (historyIndex s) (prompt s) (loadingMessage s) (error s) (editHotspot s) (displayHotspot s) (activeTab s) v (crop s) (completedCrop s) (imgRef s) (magicFillPrompt s) (magicFillMask s) (freestyleMask s) (combinePlacement s).
Definition setCrop (v : option PixelCrop) (s : AppState) : AppState :=
  mkApp (history s) (historyIndex s) (prompt s) (loadingMessage s) (error s) (editHotspot s) (displayHotspot s) (activeTab s) (secondaryImage s) v (completedCrop s) (imgRef s) (magicFillPrompt s) (magicFillMask s) (freestyleMask s) (combinePlacement s).
Definition setCompletedCrop (v : option PixelCrop) (s : AppState) : AppState :=
  mkApp (history s) (historyIndex s) (prompt s) (loadingMessage s) (error s) (editHotspot s) (displayHotspot s) (activeTab s) (secondaryImage s) (crop s) v (imgRef s) (magicFillPrompt s) (magicFillMask s) (freestyleMask s) (combinePlacement s).
Definition setImgRef (v : option HTMLImage) (s : AppState) : AppState :=
  mkApp (history s) (historyIndex s) (prompt s) (loadingMessage s) (error s) (editHotspot s) (displayHotspot s) (activeTab s) (secondaryImage s) (crop s) (completedCrop s) v (magicFillPrompt s) (magicFillMask s) (freestyleMask s) (combinePlacement s).
Definition setMagicFillPrompt (v : string) (s : AppState) : AppState :=
  mkApp (history s) (historyIndex s) (prompt s) (loadingMessage s) (error s) (editHotspot s) (displayHotspot s) (activeTab s) (secondaryImage s) (crop s) (completedCrop s) (imgRef s) v (magicFillMask s) (freestyleMask s) (combinePlacement s).
Definition setMagicFillMask (v : MaskState) (s : AppState) : AppState :=
  mkApp (history s) (historyIndex s) (prompt s) (loadingMessage s) (error s) (editHotspot s) (displayHotspot s) (activeTab s) (secondaryImage s) (crop s) (completedCrop s) (imgRef s) (magicFillPrompt s) v (freestyleMask s) (combinePlacement s).
Definition setFreestyleMask (v : MaskState) (s : AppState) : AppState :=
  mkApp (history s) (historyIndex s) (prompt s) (loadingMessage s) (error s) (editHotspot s) (displayHotspot s) (activeTab s) (secondaryImage s) (crop s) (completedCrop s) (imgRef s) (magicFillPrompt s) (magicFillMask s) v (combinePlacement s).
Definition setCombinePlacement (v : Placement) (s : AppState) : AppState :=
  mkApp (history s) (historyIndex s) (prompt s) (loadingMessage s) (error s) (editHotspot s) (displayHotspot s) (activeTab s) (secondaryImage s) (crop s) (completedCrop s) (imgRef s) (magicFillPrompt s) (magicFillMask s) (freestyleMask s) v.
Definition withBrushSize (v : Z) (m : MaskState) : MaskState :=
  mkMask v (isErasing m) (isMaskDrawn m) (maskCanvasRef m) (isDrawingRef m) (maskHistoryRef m) (canUndoMask m).
Definition withIsErasing (v : bool) (m : MaskState) : MaskState :=
  mkMask (brushSize m) v (isMaskDrawn m) (maskCanvasRef m) (isDrawingRef m) (maskHistoryRef m) (canUndoMask m).
Definition withIsMaskDrawn (v : bool) (m : MaskState) : MaskState :=
  mkMask (brushSize m) (isErasing m) v (maskCanvasRef m) (isDrawingRef m) (maskHistoryRef m) (canUndoMask m).
Definition withMaskCanvasRef (v : option Canvas) (m : MaskState) : MaskState :=
  mkMask (brushSize m) (isErasing m) (isMaskDrawn m) v (isDrawingRef m) (maskHistoryRef m) (canUndoMask m).
Definition withIsDrawingRef (v : bool) (m : MaskState) : MaskState :=
  mkMask (brushSize m) (isErasing m) (isMaskDrawn m) (maskCanvasRef m) v (maskHistoryRef m) (canUndoMask m).
Definition withMaskHistoryRef (v : list ImageData) (m : MaskState) : MaskState :=
  mkMask (brushSize m) (isErasing m) (isMaskDrawn m) (maskCanvasRef m) (isDrawingRef m) v (canUndoMask m).
Definition withCanUndoMask (v : bool) (m : MaskState) : MaskState :=
  mkMask (brushSize m) (isErasing m) (isMaskDrawn m) (maskCanvasRef m) (isDrawingRef m) (maskHistoryRef m) v.

Definition initialMask : MaskState := mkMask 30 false false None false [] false.

(** The state of a freshly mounted component. *)
Definition initialState : AppState :=
  mkApp [] (-1) EmptyString None None None None Retouch None None None None
        EmptyString initialMask initialMask Blend.

Definition isSome {A} (o : option A) : bool :=
  match o with Some _ => true | None => false end.

(** ** Snapshot history *)

Definition currentImage (s : AppState) : option File :=
  JS.index (history s) (historyIndex s).

Definition originalImage (s : AppState) : option File :=
  JS.index (history s) 0.

Definition canUndo (s : AppState) : bool := (0 <? historyIndex s)%Z.

Definition canRedo (s : AppState) : bool :=
  (historyIndex s <? Z.of_nat (length (history s)) - 1)%Z.

(** [addImageToHistory] reads [history] and [historyIndex] from the render
    it was created in ([cl]) and sets state on the live component ([s]).
    Called from a click the two are the same state. *)
Definition addImageToHistory (cl : AppState) (newImageFile : File)
    (s : AppState) : AppState :=
  let newHistory :=
    JS.push (JS.slice (history cl) 0 (historyIndex cl + 1)) newImageFile in
  setCombinePlacement Blend
    (setSecondaryImage None
      (setCompletedCrop None
        (setCrop None
          (setHistoryIndex (Z.of_nat (length newHistory) - 1)
            (setHistory newHistory s))))).

Definition handleImageUpload (file : File) (s : AppState) : AppState :=
  setCombinePlacement Blend
    (setSecondaryImage None
      (setCompletedCrop None
        (setCrop None
          (setActiveTab Retouch
            (setDisplayHotspot None
              (setEditHotspot None
                (setHistoryIndex 0
                  (setHistory [file] (setError None s))))))))).

Definition handleUndo (s : AppState) : AppState :=
  if canUndo s then
    setCombinePlacement Blend
      (setSecondaryImage None
        (setDisplayHotspot None
          (setEditHotspot None
            (setHistoryIndex (historyIndex s - 1) s))))
  else s.

Definition handleRedo (s : AppState) : AppState :=
  if canRedo s then
    setCombinePlacement Blend
      (setSecondaryImage None
        (setDisplayHotspot None
          (setEditHotspot None
            (setHistoryIndex (historyIndex s + 1) s))))
  else s.

Definition handleReset (s : AppState) : AppState :=
  if 0 <? length (history s) then
    setCombinePlacement Blend
      (setSecondaryImage None
        (setDisplayHotspot None
          (setEditHotspot None
            (setError None
              (setHistoryIndex 0 s)))))
  else s.

Definition handleUploadNew (s : AppState) : AppState :=
  setCombinePlacement Blend
    (setSecondaryImage None
      (setDisplayHotspot None
        (setEditHotspot None
          (setPrompt EmptyString
            (setError None
              (setHistoryIndex (-1)
                (setHistory [] s))))))).

(** The history operations as a small command language. *)
Inductive HistoryOp :=
| OpAppend (snapshot : File)
| OpUndo
| OpRedo
| OpReset.

Definition stepHistory (s : AppState) (op : HistoryOp) : AppState :=
  match op with
  | OpAppend f => addImageToHistory s f s
  | OpUndo => handleUndo s
  | OpRedo => handleRedo s
  | OpReset => handleReset s
  end.

Definition runHistory (ops : list HistoryOp) (s : AppState) : AppState :=
  fold_left stepHistory ops s.

(** ** The 2D canvas *)

Fixpoint mapi_from {A B} (f : nat -> A -> B) (i : nat) (l : list A) : list B :=
  match l with
  | [] => []
  | a :: r => f i a :: mapi_from f (S i) r
  end.

Definition mapi {A B} (f : nat -> A -> B) (l : list A) : list B :=
  mapi_from f 0 l.

Definition bytesOf (p : Pixel) : list N := [R p; G p; B p; A p].

Definition byteAt (d : list N) (i : nat) : N := nth i d 0%N.

(** Pixel [k] of an [ImageData]: bytes [4k .. 4k+3]. *)
Definition pixelAt (img : ImageData) (k : nat) : Pixel :=
  mkPixel (byteAt (data img) (4 * k)) (byteAt (data img) (4 * k + 1))
          (byteAt (data img) (4 * k + 2)) (byteAt (data img) (4 * k + 3)).

Definition createCanvas (w h : nat) : Canvas :=
  mkCanvas w h (repeat transparent (w * h)) [].

(** [ctx.getImageData(0, 0, canvas.width, canvas.height)]. *)
Definition getImageData (c : Canvas) : ImageData :=
  mkImageData (width c) (height c) (flat_map bytesOf (pixels c)).

(** Porter-Duff "source over" on 8-bit channels. *)
Definition source_over (s d : Pixel) : Pixel :=
  let ao := (A s + A d * (255 - A s) / 255)%N in
  let ch := fun cs cd : N =>
    ((cs * A s * 255 + cd * A d * (255 - A s)) / (ao * 255))%N in
  mkPixel (ch (R s) (R d)) (ch (G s) (G d)) (ch (B s) (B d)) ao.

(** Write an [sw] x [sh] block, given by [src], at the origin of [c];
    pixels of [c] outside the block keep their value. *)
Definition blit (combine : Pixel -> Pixel -> Pixel) (sw sh : nat)
    (src : nat -> Pixel) (c : Canvas) : Canvas :=
  mkCanvas (width c) (height c)
    (mapi (fun k old =>
             let x := k mod width c in
             let y := k / width c in
             if (x <? sw) && (y <? sh) then combine (src (y * sw + x)) old
             else old)
          (pixels c))
    (path c).

(** [ctx.putImageData(img, 0, 0)]: the bytes replace what was there. *)
Definition putImageData (img : ImageData) (c : Canvas) : Canvas :=
  blit (fun new _ => new) (iwidth img) (iheight img) (pixelAt img) c.

(** [ctx.drawImage(src, 0, 0)] with the default compositing. *)
Definition drawImage (src : Canvas) (c : Canvas) : Canvas :=
  blit source_over (width src) (height src)
       (fun k => nth k (pixels src) transparent) c.

(** [ctx.fillStyle = colour; ctx.fillRect(0, 0, canvas.width, canvas.height)]. *)
Definition fillRect (colour : Pixel) (c : Canvas) : Canvas :=
  mkCanvas (width c) (height c) (map (source_over colour) (pixels c)) (path c).

(** [ctx.clearRect(0, 0, canvas.width, canvas.height)]. *)
Definition clearRect (c : Canvas) : Canvas :=
  mkCanvas (width c) (height c) (map (fun _ => transparent) (pixels c)) (path c).

Definition beginPath (c : Canvas) : Canvas :=
  mkCanvas (width c) (height c) (pixels c) [].

Definition moveTo (p : Q * Q) (c : Canvas) : Canvas :=
  mkCanvas (width c) (height c) (pixels c) (path c ++ [p]).

Definition lineTo (p : Q * Q) (c : Canvas) : Canvas :=
  mkCanvas (width c) (height c) (pixels c) (path c ++ [p]).

Definition closePath (c : Canvas) : Canvas :=
  mkCanvas (width c) (height c) (pixels c)
           (match path c with [] => [] | p :: _ => path c ++ [p] end).

Inductive CompositeOp := SourceOver | DestinationOut.

Record StrokeSettings := mkStroke {
  lineWidth : Z;
  globalCompositeOperation : CompositeOp;
  strokeStyle : Pixel
}.

(** Pointer input: a mouse event, or a touch event with its first touch. *)
Inductive NativeEvent :=
| MouseEvent (clientX clientY : Q)
| TouchEvent (touch0 : Q * Q) (others : list (Q * Q)).

(** The event together with the canvas' bounding rectangle when it fired. *)
Record PointerInput := mkInput {
  nativeEvent : NativeEvent;
  rectLeft : Q;
  rectTop : Q
}.

(** A click on the displayed image. *)
Record ClickEvent := mkClick {
  clickX : Q;
  clickY : Q;
  targetLeft : Q;
  targetTop : Q;
  currentTarget : HTMLImage
}.

(** The awaited calls into the image service. *)
Inductive ExternalCall :=
| generateEditedImage (image : File) (instruction : string) (hotspot : Z * Z)
| generateMagicFillImage (image : File) (mask : Canvas) (instruction : string)
| generateAdjustedImage (image : File) (instruction : string)
                        (reference : option File).

(** ** Hotspot selection *)

Definition natQ (n : nat) : Q := inject_Z (Z.of_nat n).

Definition handleImageClick (e : ClickEvent) (s : AppState) : AppState :=
  match activeTab s with
  | Retouch =>
      let img := currentTarget e in
      let offsetX := (clickX e - targetLeft e)%Q in
      let offsetY := (clickY e - targetTop e)%Q in
      let scaleX := (natQ (naturalWidth img) / natQ (clientWidth img))%Q in
      let scaleY := (natQ (naturalHeight img) / natQ (clientHeight img))%Q in
      let originalX := JS.Math_round (offsetX * scaleX) in
      let originalY := JS.Math_round (offsetY * scaleY) in
      setEditHotspot (Some (originalX, originalY))
        (setDisplayHotspot (Some (offsetX, offsetY)) s)
  | _ => s
  end.


(** ** Point edit (retouch) *)

(** [handleGenerate] up to its [await]: the new state and the call that is
    now outstanding, if any. *)
Definition handleGenerate (s : AppState) : AppState * option ExternalCall :=
  match currentImage s with
  | None => (setError (Some ErrNoImageLoaded) s, None)
  | Some image =>
      if negb (JS.truthy (JS.trim (prompt s))) then
        (setError (Some ErrNoPrompt) s, None)
      else
        match editHotspot s with
        | None => (setError (Some ErrNoHotspot) s, None)
        | Some hotspot =>
            (setError None (setLoadingMessage (Some BusyRetouch) s),
             Some (generateEditedImage image (prompt s) hotspot))
        end
  end.

(** ... and from the answer on: [cl] is the render the handler closed
    over, [s] the component when the answer arrives. *)
Definition handleGenerate_resume (cl : AppState) (answer : Failure + File)
    (s : AppState) : AppState :=
  setLoadingMessage None
    (match answer with
     | inr newImageFile =>
         setDisplayHotspot None
           (setEditHotspot None (addImageToHistory cl newImageFile s))
     | inl err => setError (Some (ErrFormatted CtxRetouch err)) s
     end).

(** ** Mask surfaces *)

Definition maskOf (t : Tab) (s : AppState) : MaskState :=
  match t with
  | Magicfill => magicFillMask s
  | _ => freestyleMask s
  end.

Definition setMaskOf (t : Tab) (m : MaskState) (s : AppState) : AppState :=
  match t with
  | Magicfill => setMagicFillMask m s
  | _ => setFreestyleMask m s
  end.

Definition isMaskTab (t : Tab) : bool :=
  match t with
  | Magicfill | Freestyle => true
  | _ => false
  end.

Definition getCoords (e : PointerInput) (s : AppState) : option (Q * Q) :=
  match maskCanvasRef (maskOf (activeTab s) s) with
  | None => None
  | Some _ =>
      let '(clientX, clientY) :=
        match nativeEvent e with
        | MouseEvent cx cy => (cx, cy)
        | TouchEvent t _ => t
        end in
      Some ((clientX - rectLeft e)%Q, (clientY - rectTop e)%Q)
  end.

Definition startDrawing (e : PointerInput) (s : AppState) : AppState :=
  if isSome (loadingMessage s) || negb (isMaskTab (activeTab s)) then s
  else
    let t := activeTab s in
    let m := maskOf t s in
    match getCoords e s, maskCanvasRef m with
    | Some coords, Some canvas =>
        setMaskOf t
          (withMaskCanvasRef (Some (moveTo coords (beginPath canvas)))
            (withIsDrawingRef true
              (withCanUndoMask true
                (withMaskHistoryRef
                   (JS.push (maskHistoryRef m) (getImageData canvas)) m))))
          s
    | _, _ => s
    end.

Definition nonZero (channel : N) : bool := negb (channel =? 0)%N.

Definition stopDrawing (s : AppState) : AppState :=
  let t := activeTab s in
  let m := maskOf t s in
  match isDrawingRef m, maskCanvasRef m with
  | true, Some canvas =>
      let canvas' := closePath canvas in
      let imageData := getImageData canvas' in
      let hasDrawing := JS.some nonZero (data imageData) in
      setMaskOf t
        (withIsMaskDrawn hasDrawing
          (withIsDrawingRef false
            (withMaskCanvasRef (Some canvas') m)))
        s
  | _, _ => s
  end.

(** [clearMask] and [undoMaskStroke] are memoised on [activeTab]: the tab
    is the one of the render they come from ([cl]); the refs they read
    are the live ones ([s]). *)
Definition clearMask (cl : AppState) (s : AppState) : AppState :=
  let t := activeTab cl in
  let m := maskOf t s in
  match maskCanvasRef m with
  | Some canvas =>
      setMaskOf t
        (withCanUndoMask false
          (withMaskHistoryRef []
            (withIsMaskDrawn false
              (withMaskCanvasRef (Some (clearRect canvas)) m))))
        s
  | None => s
  end.

Definition undoMaskStroke (cl : AppState) (s : AppState) : AppState :=
  let t := activeTab cl in
  let m := maskOf t s in
  match maskCanvasRef m with
  | Some canvas =>
      if 0 <? length (maskHistoryRef m) then
        let '(rest, lastState) := JS.pop (maskHistoryRef m) in
        let canvas' :=
          match lastState with
          | Some img => putImageData img canvas
          | None => canvas
          end in
        let hasDrawing :=
          match lastState with
          | Some img => JS.some nonZero (data img)
          | None => false
          end in
        setMaskOf t
          (withIsMaskDrawn hasDrawing
            (withCanUndoMask (0 <? length rest)
              (withMaskHistoryRef rest
                (withMaskCanvasRef (Some canvas') m))))
          s
      else s
  | None => s
  end.

(** ** Mask rasterisation *)

(** The thresholding loop over the channel bytes, four at a time: a pixel
    with alpha above zero becomes [(v, v, v, 255)]. *)
Fixpoint markPainted (v : N) (d : list N) : list N :=
  match d with
  | r :: g :: b :: a :: rest =>
      if (0 <? a)%N then v :: v :: v :: 255%N :: markPainted v rest
      else r :: g :: b :: a :: markPainted v rest
  | tail => tail
  end.

Section Browser.

(** What the browser's rasteriser leaves in pixel [k] of a [w] x [h]
    bitmap when the current path is stroked with the given settings. *)
Variable strokePixel :
  StrokeSettings -> list (Q * Q) -> nat -> nat -> nat -> Pixel -> Pixel.

(** The browser's resampling for a scaled [drawImage], as a point
    sampler: destination pixel [k] of a [dw] x [dh] bitmap reads source
    pixel [resample sw sh dw dh k] of the [sw] x [sh] source. *)
Variable resample : nat -> nat -> nat -> nat -> nat -> nat.

Definition stroke (st : StrokeSettings) (c : Canvas) : Canvas :=
  mkCanvas (width c) (height c)
    (mapi (fun k old => strokePixel st (path c) (width c) (height c) k old)
          (pixels c))
    (path c).

(** [ctx.drawImage(src, 0, 0, canvas.width, canvas.height)]. *)
Definition drawImageScaled (src : Canvas) (c : Canvas) : Canvas :=
  mkCanvas (width c) (height c)
    (mapi (fun k old =>
             source_over
               (nth (resample (width src) (height src) (width c) (height c) k)
                    (pixels src) transparent)
               old)
          (pixels c))
    (path c).

Definition draw (e : PointerInput) (s : AppState) : AppState :=
  let t := activeTab s in
  let m := maskOf t s in
  match isDrawingRef m, maskCanvasRef m with
  | true, Some canvas =>
      match getCoords e s with
      | None => s
      | Some coords =>
          let settings :=
            if isErasing m then
              mkStroke (brushSize m) DestinationOut (mkPixel 0 0 0 255)
            else
              mkStroke (brushSize m) SourceOver
                (match t with
                 | Magicfill => mkPixel 74 144 226 153
                 | _ => mkPixel 234 179 8 153
                 end) in
          setMaskOf t
            (withMaskCanvasRef (Some (stroke settings (lineTo coords canvas))) m)
            s
      end
  | _, _ => s
  end.

(** The mask canvas both apply handlers build: a native-size canvas
    filled with [background], onto which the thresholded copy of the
    mask surface is drawn scaled. *)
Definition buildMask (background : Pixel) (v : N) (image : HTMLImage)
    (sourceCanvas : Canvas) : Canvas :=
  let maskCanvas :=
    fillRect background
      (createCanvas (naturalWidth image) (naturalHeight image)) in
  let tempMaskCanvas :=
    drawImage sourceCanvas
      (createCanvas (width sourceCanvas) (height sourceCanvas)) in
  let imageData := getImageData tempMaskCanvas in
  let imageData' :=
    mkImageData (iwidth imageData) (iheight imageData)
                (markPainted v (data imageData)) in
  let tempMaskCanvas' := putImageData imageData' tempMaskCanvas in
  drawImageScaled tempMaskCanvas' maskCanvas.

(** Fill mode: black background, painted pixels white. *)
Definition magicFillMaskCanvas := buildMask black 255.

(** Protect mode: white background, painted pixels black. *)
Definition freestyleMaskCanvas := buildMask white 0.

(** ** Mask fill *)

Definition handleApplyMagicFill (s : AppState)
    : AppState * option ExternalCall :=
  match currentImage s, maskCanvasRef (magicFillMask s),
        isMaskDrawn (magicFillMask s) with
  | Some image0, Some sourceCanvas, true =>
      match imgRef s with
      | None => (s, None)
      | Some image =>
          (setError None (setLoadingMessage (Some BusyMagicFill) s),
           Some (generateMagicFillImage image0
                   (magicFillMaskCanvas image sourceCanvas)
                   (magicFillPrompt s)))
      end
  | _, _, _ => (setError (Some ErrPaintFirst) s, None)
  end.

Definition handleApplyMagicFill_resume (cl : AppState)
    (answer : Failure + File) (s : AppState) : AppState :=
  setLoadingMessage None
    (match answer with
     | inr newImageFile =>
         setMagicFillPrompt EmptyString
           (clearMask cl (addImageToHistory cl newImageFile s))
     | inl err => setError (Some (ErrFormatted CtxMagicFill err)) s
     end).

(** ** Free instruction (freestyle) *)

Definition handleApplyFreestyle (freestylePrompt : string) (s : AppState)
    : AppState * option ExternalCall :=
  match currentImage s with
  | None => (setError (Some ErrNoImageLoaded) s, None)
  | Some image0 =>
      let s' := setError None (setLoadingMessage (Some BusyFreestyle) s) in
      match isMaskDrawn (freestyleMask s),
            maskCanvasRef (freestyleMask s), imgRef s with
      | true, Some sourceCanvas, Some image =>
          (s', Some (generateMagicFillImage image0
                       (freestyleMaskCanvas image sourceCanvas)
                       freestylePrompt))
      | _, _, _ =>
          (s', Some (generateAdjustedImage image0 freestylePrompt None))
      end
  end.

Definition handleApplyFreestyle_resume (cl : AppState)
    (answer : Failure + File) (s : AppState) : AppState :=
  setLoadingMessage None
    (match answer with
     | inr newImageFile =>
         clearMask cl (addImageToHistory cl newImageFile s)
     | inl err => setError (Some (ErrFormatted CtxFreestyle err)) s
     end).

End Browser.

(** ** Which elements a committed render leaves mounted

    [renderContent] shows the image only when there is no error and an
    image is loaded, and each mask canvas only on its own tab and while no
    request is loading; React attaches a ref when its element mounts and
    sets it to [null] when the element unmounts.  [img] and [fresh] are
    the elements the browser creates if one has to be mounted. *)

Definition isNone {A} (o : option A) : bool := negb (isSome o).

Definition imageShown (s : AppState) : bool :=
  isNone (error s) && isSome (currentImage s).

Definition maskCanvasShown (t : Tab) (s : AppState) : bool :=
  imageShown s && Tab_eqb (activeTab s) t && isNone (loadingMessage s).

Definition attach (shown : bool) (fresh : Canvas) (m : MaskState) : MaskState :=
  withMaskCanvasRef
    (if shown then
       match maskCanvasRef m with
       | Some c => Some c
       | None => Some fresh
       end
     else None)
    m.

Definition commitRender (img : HTMLImage) (fresh : Canvas) (s : AppState)
    : AppState :=
  setImgRef (if imageShown s then Some img else None)
    (setMagicFillMask (attach (maskCanvasShown Magicfill s) fresh (magicFillMask s))
      (setFreestyleMask (attach (maskCanvasShown Freestyle s) fresh (freestyleMask s))
        s)).

(** Nearest-neighbour sampling, one instance of [resample]. *)
Definition nearest (sw sh dw dh k : nat) : nat :=
  let x := k mod dw in
  let y := k / dw in
  (y * sh / dh) * sw + (x * sw / dw).

(** ** Strokes *)

Section Strokes.

Variable strokePixel :
  StrokeSettings -> list (Q * Q) -> nat -> nat -> nat -> Pixel -> Pixel.

(** One stroke: pointer down, any number of moves, pointer up. *)
Definition strokeOnce (s : AppState) (g : PointerInput * list PointerInput)
    : AppState :=
  stopDrawing
    (fold_left (fun s' e => draw strokePixel e s') (snd g)
               (startDrawing (fst g) s)).

Definition strokes (gs : list (PointerInput * list PointerInput))
    (s : AppState) : AppState :=
  fold_left strokeOnce gs s.

End Strokes.

(** [undoMaskStroke] clicked [n] times. *)
Fixpoint undoStrokes (n : nat) (s : AppState) : AppState :=
  match n with
  | 0 => s
  | S k => let s' := undoStrokes k s in undoMaskStroke s' s'
  end.

(** ** Sample data used in the worked examples *)

Definition fileA : File := mkFile "A" "".
Definition fileB : File := mkFile "B" "".
Definition fileC : File := mkFile "C" "".
Definition fileD : File := mkFile "D" "".

(** History [A, B, C] with the cursor on B. *)
Definition stateABC : AppState :=
  setHistoryIndex 1 (setHistory [fileA; fileB; fileC] initialState).

(** The cursor invariant of the snapshot history. *)
Definition cursorInv (s : AppState) : Prop :=
  (-1 <= historyIndex s <= Z.of_nat (length (history s)) - 1)%Z
  /\ (historyIndex s = (-1)%Z <-> history s = []).

(** A 300 x 200 image laid out at 150 x 100. *)
Definition img300 : HTMLImage := mkImage 300 200 150 100.

(** A canvas is well formed when its bitmap has one pixel per position. *)
Definition wfCanvas (c : Canvas) : Prop :=
  length (pixels c) = width c * height c.

(** The mask surface and the paint flag of the active tab. *)
Definition maskSurface (s : AppState) : option Canvas :=
  maskCanvasRef (maskOf (activeTab s) s).

Definition hasPaint (s : AppState) : bool :=
  isMaskDrawn (maskOf (activeTab s) s).

Definition strokeStack (s : AppState) : list ImageData :=
  maskHistoryRef (maskOf (activeTab s) s).

(** The bitmap of the active surface (empty when none is mounted). *)
Definition surfacePixels (s : AppState) : list Pixel :=
  match maskSurface s with
  | Some c => pixels c
  | None => []
  end.


(** Some channel byte of some pixel is non-zero. *)
Definition someChannel (c : Canvas) : Prop :=
  exists p, In p (pixels c)
            /\ (R p <> 0 \/ G p <> 0 \/ B p <> 0 \/ A p <> 0)%N.


(** What the thresholding loop does to one pixel. *)
Definition markPixel (v : N) (p : Pixel) : Pixel :=
  if (0 <? A p)%N then mkPixel v v v 255 else p.


(** A one-pixel surface whose only pixel is transparent but not blank,
    in the middle of a stroke on the magic-fill tab. *)
Definition tintedCanvas : Canvas := mkCanvas 1 1 [mkPixel 1 0 0 0] [].

Definition tintedState : AppState :=
  setMagicFillMask
    (mkMask 30 false false (Some tintedCanvas) true [] true)
    (setActiveTab Magicfill stateABC).

(** A 4 x 2 image laid out at 2 x 1, and a surface of that layout size
    whose right pixel carries the fill tint. *)
Definition img4x2 : HTMLImage := mkImage 4 2 2 1.

Definition paintedSurface : Canvas :=
  mkCanvas 2 1 [transparent; mkPixel 74 144 226 153] [].

(** A mask tab with a mounted, well-formed surface and nothing loading:
    the situation in which the pointer handlers act. *)
Definition maskReady (s : AppState) (c : Canvas) : Prop :=
  isMaskTab (activeTab s) = true
  /\ loadingMessage s = None
  /\ maskSurface s = Some c
  /\ wfCanvas c.

(** Same size, bitmap of the same length. *)
Definition sameShape (c c' : Canvas) : Prop :=
  width c' = width c /\ height c' = height c
  /\ length (pixels c') = length (pixels c).

(** A rasteriser for the examples: the stroke covers the whole bitmap. *)
Definition floodStroke (st : StrokeSettings) (_ : list (Q * Q))
    (_ _ _ : nat) (old : Pixel) : Pixel :=
  match globalCompositeOperation st with
  | SourceOver => source_over (strokeStyle st) old
  | DestinationOut => transparent
  end.

(** The magic-fill tab with a clear 2 x 1 surface mounted. *)
Definition paintingState : AppState :=
  setImgRef (Some img4x2)
    (setMagicFillMask
       (mkMask 30 false false (Some (createCanvas 2 1)) false [] false)
       (setActiveTab Magicfill stateABC)).

Definition pointerAt (x y : Q) : PointerInput :=
  mkInput (MouseEvent x y) 0 0.

(** The freestyle tab on history [A, B, C] (cursor on B) with a protect
    mask painted in one stroke: the right pixel of the 2 x 1 surface
    carries the protect tint, the flag is set, and the stroke stack holds
    the clear surface pushed at pointer down. *)
Definition protectState : AppState :=
  setImgRef (Some img4x2)
    (setFreestyleMask
       (mkMask 30 false true
               (Some (mkCanvas 2 1 [transparent; mkPixel 234 179 8 153] []))
               false [getImageData (createCanvas 2 1)] true)
       (setActiveTab Freestyle stateABC)).

(** A successful masked freestyle edit, step by step: the click, the
    render that shows the loading overlay, the service's answer, and the
    render after it. *)
Definition protectClicked : AppState :=
  fst (handleApplyFreestyle nearest "make it sepia" protectState).

Definition protectLoading : AppState :=
  commitRender img4x2 (createCanvas 2 1) protectClicked.

Definition protectAnswered : AppState :=
  handleApplyFreestyle_resume protectState (inr fileD) protectLoading.

Definition protectDone : AppState :=
  commitRender img4x2 (createCanvas 2 1) protectAnswered.

(** ** Further handlers of the component *)

(** [handleFileSelect]: the first file of a non-empty selection is
    uploaded; [None] is a [null] file list. *)
Definition handleFileSelect (files : option (list File)) (s : AppState)
    : AppState :=
  match files with
  | Some (file :: _) => handleImageUpload file s
  | _ => s
  end.

Definition handleSecondaryImageUpload (file : File) (s : AppState) : AppState :=
  let s' := setSecondaryImage (Some file) s in
  match activeTab s with
  | Combine => s'
  | _ => setCombinePlacement Blend s'
  end.

Definition handleClearSecondaryImage (s : AppState) : AppState :=
  setCombinePlacement Blend (setSecondaryImage None s).

(** The display offset a click is turned into, and the hotspot it gives. *)
Definition clickOffsetX (e : ClickEvent) : Q := (clickX e - targetLeft e)%Q.
Definition clickOffsetY (e : ClickEvent) : Q := (clickY e - targetTop e)%Q.

(** What the user can do to a mask surface. *)
Inductive MaskEvent :=
| PointerDown (e : PointerInput)
| PointerMove (e : PointerInput)
| PointerUp
| UndoStrokeClicked
| ClearMaskClicked.

(** What can happen to the component: the user's actions, the answers of
    the image service, and renders.  An answer names the render whose
    handler is being resumed by its age ([0] is the render before the
    current state). *)
Inductive AppEvent :=
| FileSelected (files : option (list File))
| UploadNewClicked
| UndoClicked
| RedoClicked
| ResetClicked
| TabClicked (t : Tab)
| ImageClicked (e : ClickEvent)
| PromptTyped (p : string)
| MagicFillPromptTyped (p : string)
| SecondaryUploaded (file : File)
| SecondaryCleared
| GenerateSubmitted
| GenerateAnswered (render : nat) (answer : Failure + File)
| MagicFillSubmitted
| MagicFillAnswered (render : nat) (answer : Failure + File)
| FreestyleSubmitted (p : string)
| FreestyleAnswered (render : nat) (answer : Failure + File)
| MaskInput (ev : MaskEvent)
| Rendered (img : HTMLImage) (fresh : Canvas).

Section Component.

Variable strokePixel :
  StrokeSettings -> list (Q * Q) -> nat -> nat -> nat -> Pixel -> Pixel.

Variable resample : nat -> nat -> nat -> nat -> nat -> nat.

Definition stepMask (s : AppState) (ev : MaskEvent) : AppState :=
  match ev with
  | PointerDown e => startDrawing e s
  | PointerMove e => draw strokePixel e s
  | PointerUp => stopDrawing s
  | UndoStrokeClicked => undoMaskStroke s s
  | ClearMaskClicked => clearMask s s
  end.

Definition runMask (evs : list MaskEvent) (s : AppState) : AppState :=
  fold_left stepMask evs s.

(** One event; [past] holds the earlier states, the latest first. *)
Definition stepApp (past : list AppState) (s : AppState) (ev : AppEvent)
    : AppState :=
  match ev with
  | FileSelected files => handleFileSelect files s
  | UploadNewClicked => handleUploadNew s
  | UndoClicked => handleUndo s
  | RedoClicked => handleRedo s
  | ResetClicked => handleReset s
  | TabClicked t => setActiveTab t s
  | ImageClicked e => handleImageClick e s
  | PromptTyped p => setPrompt p s
  | MagicFillPromptTyped p => setMagicFillPrompt p s
  | SecondaryUploaded file => handleSecondaryImageUpload file s
  | SecondaryCleared => handleClearSecondaryImage s
  | GenerateSubmitted => fst (handleGenerate s)
  | GenerateAnswered k answer => handleGenerate_resume (nth k past s) answer s
  | MagicFillSubmitted => fst (handleApplyMagicFill resample s)
  | MagicFillAnswered k answer =>
      handleApplyMagicFill_resume (nth k past s) answer s
  | FreestyleSubmitted p => fst (handleApplyFreestyle resample p s)
  | FreestyleAnswered k answer =>
      handleApplyFreestyle_resume (nth k past s) answer s
  | MaskInput ev => stepMask s ev
  | Rendered img fresh => commitRender img fresh s
  end.

Fixpoint runApp (evs : list AppEvent) (past : list AppState) (s : AppState)
    : AppState :=
  match evs with
  | [] => s
  | ev :: rest => runApp rest (s :: past) (stepApp past s ev)
  end.

End Component.

(** The scan both [stopDrawing] and [undoMaskStroke] run over a bitmap. *)
Definition scanPaint (l : list Pixel) : bool :=
  JS.some nonZero (flat_map bytesOf l).

(** Image data read from a canvas of the given size. *)
Definition snapshotOf (w h : nat) (img : ImageData) : Prop :=
  exists c0, img = getImageData c0 /\ wfCanvas c0
             /\ width c0 = w /\ height c0 = h.

(** The invariant of a mounted mask surface. *)
Definition maskInv (s : AppState) (c : Canvas) : Prop :=
  let m := maskOf (activeTab s) s in
  maskReady s c
  /\ canUndoMask m = (0 <? length (maskHistoryRef m))
  /\ Forall (snapshotOf (width c) (height c)) (maskHistoryRef m)
  /\ (isDrawingRef m = false -> isMaskDrawn m = scanPaint (pixels c)).

(** Two states with the same snapshot list and cursor. *)
Definition sameCursor (s s' : AppState) : Prop :=
  history s' = history s /\ historyIndex s' = historyIndex s.

(** ** Strings: the built-ins the error formatter and the decoder use *)

Module JSString.

(** [s.startsWith(p)]. *)
Fixpoint startsWith (s p : string) {struct p} : bool :=
  match p with
  | EmptyString => true
  | String a p' =>
      match s with
      | EmptyString => false
      | String b s' => Ascii.eqb a b && startsWith s' p'
      end
  end.

(** [s.includes(p)]. *)
Fixpoint includes (s p : string) : bool :=
  startsWith s p
  || match s with
     | EmptyString => false
     | String _ r => includes r p
     end.

(** [s.toLowerCase()], on the ASCII letters. *)
Definition lowerChar (c : ascii) : ascii :=
  let n := nat_of_ascii c in
  if (65 <=? n) && (n <=? 90) then ascii_of_nat (n + 32) else c.

Fixpoint toLowerCase (s : string) : string :=
  match s with
  | EmptyString => EmptyString
  | String c r => String (lowerChar c) (toLowerCase r)
  end.

(** [s.split(sep)] for a one-character separator: never empty. *)
Fixpoint split (sep : ascii) (s : string) : list string :=
  match s with
  | EmptyString => [EmptyString]
  | String c r =>
      if Ascii.eqb c sep then EmptyString :: split sep r
      else match split sep r with
           | piece :: pieces => String c piece :: pieces
           | [] => [String c EmptyString]
           end
  end.

(** [s.charCodeAt(k)] of a byte string; 0 stands for the [NaN] that an
    index outside the string gives once stored in a byte array. *)
Definition charCodeAt (s : string) (k : nat) : N :=
  match String.get k s with
  | Some c => N_of_ascii c
  | None => 0%N
  end.

End JSString.

(** ** [formatErrorMessage] *)

(** What a [catch] receives: an [Error] with its message, or anything else. *)
Inductive Thrown :=
| ErrorObject (message : string)
| OtherValue.

Definition blockedMessage (context : string) : string :=
  ("คำขอ" ++ context ++ "ของคุณถูกบล็อกเนื่องจากนโยบายความปลอดภัย กรุณาปรับเปลี่ยนคำสั่ง (เช่น หลีกเลี่ยงเนื้อหาที่ไม่เหมาะสม) แล้วลองใหม่อีกครั้ง")%string.

Definition noResultMessage (context : string) : string :=
  ("AI ไม่สามารถสร้างผลลัพธ์สำหรับ" ++ context ++ "ได้ อาจเป็นเพราะคำสั่งซับซ้อนเกินไปหรือไม่ชัดเจน กรุณาลองใช้คำสั่งที่ง่ายและตรงไปตรงมามากขึ้น")%string.

Definition failedMessage (context message : string) : string :=
  (context ++ "ล้มเหลว: " ++ message)%string.

Definition defaultMessage (context : string) : string :=
  ("เกิดข้อผิดพลาดที่ไม่คาดคิดระหว่าง" ++ context ++ " กรุณาลองใหม่อีกครั้ง")%string.

Definition formatErrorMessage (error : Thrown) (context : string) : string :=
  match error with
  | ErrorObject message =>
      let errorMessage := JSString.toLowerCase message in
      if JSString.includes errorMessage "blocked"
         || JSString.includes errorMessage "safety"
      then blockedMessage context
      else if JSString.includes errorMessage "did not return an image"
      then noResultMessage context
      else failedMessage context message
  | OtherValue => defaultMessage context
  end.

(** [w] occurs in [m] up to the case of ASCII letters. *)
Definition containsCI (m w : string) : Prop :=
  exists pre mid post : string,
    m = (pre ++ mid ++ post)%string /\ JSString.toLowerCase mid = w.

(** Every character is in the ASCII range. *)
Fixpoint isAscii (s : string) : bool :=
  match s with
  | EmptyString => true
  | String c r => (nat_of_ascii c <? 128) && isAscii r
  end.

(** ** [dataURLtoFile] *)

(** The pieces a [File] is made from: the bytes, the name, the type. *)
Record FileParts := mkParts {
  fileBits : list N;
  partsName : string;
  partsType : string
}.

(** The line terminators [.] does not match, on the ASCII range. *)
Definition isLineTerminator (c : ascii) : bool :=
  (nat_of_ascii c =? 10) || (nat_of_ascii c =? 13).

(** The lazy group of [/:(.*?);/] from just after a colon: the characters
    up to the first semicolon, if no line terminator comes before it. *)
Fixpoint lazyUntilSemicolon (s : string) : option string :=
  match s with
  | EmptyString => None
  | String c r =>
      if Ascii.eqb c ";" then Some EmptyString
      else if isLineTerminator c then None
      else match lazyUntilSemicolon r with
           | Some g => Some (String c g)
           | None => None
           end
  end.

(** [s.match(/:(.*?);/)]: the group of the leftmost match. *)
Fixpoint matchMime (s : string) : option string :=
  match s with
  | EmptyString => None
  | String c r =>
      if Ascii.eqb c ":" then
        match lazyUntilSemicolon r with
        | Some g => Some g
        | None => matchMime r
        end
      else matchMime r
  end.

(** [arr[k] = v] on a typed array: ignored outside the array. *)
Definition setAt (k : nat) (v : N) (l : list N) : list N :=
  if k <? length l then firstn k l ++ v :: skipn (S k) l else l.

(** [while (n--) u8arr[n] = bstr.charCodeAt(n)]. *)
Fixpoint fillBytes (bstr : string) (n : nat) (u8arr : list N) : list N :=
  match n with
  | 0 => u8arr
  | S k => fillBytes bstr k (setAt k (JSString.charCodeAt bstr k) u8arr)
  end.

Section Decoder.

(** The browser's base-64 decoder: the decoded byte string, or the
    message of the exception it throws. *)
Variable atob : string -> Failure + string.

Definition dataURLtoFile (dataurl filename : string) : Failure + FileParts :=
  let arr := JSString.split "," dataurl in
  if length arr <? 2 then inl "Invalid data URL"%string
  else
    match matchMime (nth 0 arr EmptyString) with
    | Some mime =>
        if JS.truthy mime then
          match atob (nth 1 arr EmptyString) with
          | inl e => inl e
          | inr bstr =>
              let n := String.length bstr in
              inr (mkParts (fillBytes bstr n (repeat 0%N n)) filename mime)
          end
        else inl "Could not parse MIME type from data URL"%string
    | None => inl "Could not parse MIME type from data URL"%string
    end.

End Decoder.

(** Character classes of the decoder. *)
Definition isComma (c : ascii) : bool := Ascii.eqb c ",".
Definition isColon (c : ascii) : bool := Ascii.eqb c ":".


(** No character of [s] satisfies [p]. *)
Fixpoint noneOf (p : ascii -> bool) (s : string) : bool :=
  match s with
  | EmptyString => true
  | String c r => negb (p c) && noneOf p r
  end.

(** ** The filter panel *)

Module FilterPanel.

Record State := mkState {
  selectedPresetPrompt : option string;
  customPrompt : string;
  searchQuery : string
}.

Definition initial : State := mkState None EmptyString EmptyString.

(** [selectedPresetPrompt || customPrompt]. *)
Definition activePrompt (st : State) : string :=
  match selectedPresetPrompt st with
  | Some p => if JS.truthy p then p else customPrompt st
  | None => customPrompt st
  end.

Definition handlePresetClick (p : string) (st : State) : State :=
  mkState (Some p) EmptyString (searchQuery st).

Definition handleCustomChange (value : string) (st : State) : State :=
  mkState None value (searchQuery st).

Definition setSearchQuery (q : string) (st : State) : State :=
  mkState (selectedPresetPrompt st) (customPrompt st) q.

(** [handleApply]: the prompt handed to [onApplyFilter], if any. *)
Definition handleApply (st : State) : option string :=
  if JS.truthy (activePrompt st) then Some (activePrompt st) else None.

Inductive Event :=
| PresetClicked (p : string)
| CustomChanged (value : string)
| SearchChanged (q : string).

Definition step (st : State) (ev : Event) : State :=
  match ev with
  | PresetClicked p => handlePresetClick p st
  | CustomChanged v => handleCustomChange v st
  | SearchChanged q => setSearchQuery q st
  end.

Definition run (evs : list Event) (st : State) : State := fold_left step evs st.

(** The prompt the user chose last, [dflt] if none was chosen. *)
Definition lastChoice (evs : list Event) (dflt : string) : string :=
  fold_left (fun acc ev =>
               match ev with
               | PresetClicked p => p
               | CustomChanged v => v
               | SearchChanged _ => acc
               end) evs dflt.

End FilterPanel.

(** ** The freestyle panel *)

Module FreestylePanel.

Record State := mkState {
  prompt : string;
  showProtectionTools : bool
}.

Definition handleSampleClick (sample : string) (st : State) : State :=
  mkState sample (showProtectionTools st).

Section Apply.

Variable resample : nat -> nat -> nat -> nat -> nat -> nat.

(** [handleApply]: the form's submit handler, wired to the component's
    [handleApplyFreestyle]. *)
Definition handleApply (st : State) (s : AppState)
    : AppState * option ExternalCall :=
  if JS.truthy (JS.trim (prompt st)) then
    handleApplyFreestyle resample (prompt st) s
  else (s, None).

End Apply.

End FreestylePanel.


(** The text [formatErrorMessage] is called with for each kind of edit,
    and the text an [ErrFormatted] message shows. *)
Definition contextText (c : EditContext) : string :=
  match c with
  | CtxRetouch => "การรีทัช"
  | CtxMagicFill => "การเติมภาพ"
  | CtxFreestyle => "การแก้ไขตามจินตนาการ"
  end.

(** * Properties *)

(** ** Snapshot history *)

Lemma slice_prefix {A} (l : list A) (k : Z) :
  (0 <= k)%Z -> JS.slice l 0 k = firstn (Z.to_nat k) l.
Proof.
  intros Hk. unfold JS.slice, JS.relIndex.
  replace (0 <? 0)%Z with false by reflexivity.
  destruct (k <? 0)%Z eqn:E; [apply Z.ltb_lt in E; lia|].
  rewrite (Z.min_l 0) by lia. simpl skipn. rewrite Z.sub_0_r.
  destruct (Z.min_spec k (Z.of_nat (length l))) as [[H1 H2]|[H1 H2]]; rewrite H2.
  - reflexivity.
  - rewrite Nat2Z.id, firstn_all.
    symmetry. apply firstn_all2. lia.
Qed.

Lemma index_app_last {A} (l : list A) (x : A) :
  JS.index (l ++ [x]) (Z.of_nat (length (l ++ [x])) - 1) = Some x.
Proof.
  unfold JS.index. rewrite length_app. simpl length.
  destruct (Z.of_nat (length l + 1) - 1 <? 0)%Z eqn:E;
    [apply Z.ltb_lt in E; lia|].
  replace (Z.to_nat (Z.of_nat (length l + 1) - 1)) with (length l) by lia.
  rewrite nth_error_app2 by lia. rewrite Nat.sub_diag. reflexivity.
Qed.

(** C1: [addImageToHistory] keeps the entries up to the cursor, drops the
    rest, puts the new snapshot last and moves the cursor onto it. *)
Theorem addImageToHistory_prunes_and_appends :
  forall (s : AppState) (snapshot : File),
    (-1 <= historyIndex s)%Z ->
    let s' := addImageToHistory s snapshot s in
    history s' =
      firstn (Z.to_nat (historyIndex s + 1)) (history s) ++ [snapshot]
    /\ historyIndex s' = (Z.of_nat (length (history s')) - 1)%Z
    /\ currentImage s' = Some snapshot.
Proof.
  intros s snapshot Hc s'.
  assert (Hh : history s' =
               firstn (Z.to_nat (historyIndex s + 1)) (history s) ++ [snapshot]).
  { subst s'. unfold addImageToHistory, JS.push. simpl.
    rewrite slice_prefix by lia. reflexivity. }
  assert (Hi : historyIndex s' = (Z.of_nat (length (history s')) - 1)%Z).
  { rewrite Hh. subst s'. unfold addImageToHistory, JS.push. simpl.
    rewrite slice_prefix by lia. reflexivity. }
  split; [exact Hh|]. split; [exact Hi|].
  unfold currentImage. rewrite Hi, Hh. apply index_app_last.
Qed.

Lemma addImageToHistory_example :
  history (addImageToHistory stateABC fileD stateABC) = [fileA; fileB; fileD]
  /\ historyIndex (addImageToHistory stateABC fileD stateABC) = 2%Z.
Proof.
  assert (H : (-1 <= historyIndex stateABC)%Z) by (simpl; lia).
  destruct (addImageToHistory_prunes_and_appends stateABC fileD H)
    as [Hh [Hi _]].
  split.
  - rewrite Hh. reflexivity.
  - rewrite Hi, Hh. reflexivity.
Defined.

Lemma cursorInv_initial : cursorInv initialState.
Proof. unfold cursorInv. simpl. split; [lia|tauto]. Qed.

Lemma stepHistory_history (s : AppState) (op : HistoryOp) :
  history (stepHistory s op) = history s
  \/ exists f, op = OpAppend f
       /\ history (stepHistory s op) =
          JS.push (JS.slice (history s) 0 (historyIndex s + 1)) f.
Proof.
  destruct op; simpl.
  - right. eexists. split; reflexivity.
  - left. unfold handleUndo. destruct (canUndo s); reflexivity.
  - left. unfold handleRedo. destruct (canRedo s); reflexivity.
  - left. unfold handleReset. destruct (0 <? length (history s)); reflexivity.
Qed.

Lemma cursorInv_step (s : AppState) (op : HistoryOp) :
  cursorInv s -> cursorInv (stepHistory s op).
Proof.
  unfold cursorInv. intros [Hr He]. destruct op; unfold stepHistory.
  - destruct (addImageToHistory_prunes_and_appends s snapshot) as [Hh [Hi _]];
      [lia|].
    rewrite Hi. rewrite Hh. rewrite length_app. simpl length. split; [lia|].
    split; [lia|]. intros H. destruct (firstn _ _); discriminate H.
  - unfold handleUndo, canUndo.
    destruct (0 <? historyIndex s)%Z eqn:E; simpl; [|tauto].
    apply Z.ltb_lt in E. split; [lia|]. split; [lia|].
    intros H. apply He in H. lia.
  - unfold handleRedo, canRedo.
    destruct (historyIndex s <? Z.of_nat (length (history s)) - 1)%Z eqn:E;
      simpl; [|tauto].
    apply Z.ltb_lt in E. split; [lia|]. split; [lia|].
    intros H. rewrite H in E. simpl in E. lia.
  - unfold handleReset.
    destruct (0 <? length (history s)) eqn:E; simpl; [|tauto].
    apply Nat.ltb_lt in E. split; [lia|]. split; [lia|].
    intros H. rewrite H in E. simpl in E. lia.
Qed.

Lemma originalImage_step (s : AppState) (op : HistoryOp) (a : File) :
  cursorInv s -> originalImage s = Some a ->
  originalImage (stepHistory s op) = Some a.
Proof.
  intros [Hr He] Ho. unfold originalImage in *.
  destruct (stepHistory_history s op) as [H | [f [Hop H]]]; rewrite H.
  - exact Ho.
  - unfold JS.push. rewrite slice_prefix by lia.
    destruct (history s) as [|h0 t] eqn:Hs; [discriminate Ho|].
    assert (Hne : historyIndex s <> (-1)%Z)
      by (intro Hx; apply He in Hx; discriminate Hx).
    replace (Z.to_nat (historyIndex s + 1))
      with (S (Z.to_nat (historyIndex s))) by lia.
    simpl. exact Ho.
Qed.

Lemma cursorInv_run (ops : list HistoryOp) (s : AppState) :
  cursorInv s -> cursorInv (runHistory ops s).
Proof.
  revert s. induction ops as [|op ops IH]; intros s H; simpl; [exact H|].
  apply IH. apply cursorInv_step. exact H.
Qed.

Lemma originalImage_run (ops : list HistoryOp) (s : AppState) (a : File) :
  cursorInv s -> originalImage s = Some a ->
  originalImage (runHistory ops s) = Some a.
Proof.
  revert s. induction ops as [|op ops IH]; intros s Hi Ho; simpl; [exact Ho|].
  apply IH.
  - apply cursorInv_step. exact Hi.
  - apply originalImage_step; assumption.
Qed.

(** C2: along every sequence of history operations from the empty
    history the cursor stays in [-1, length - 1], it is [-1] exactly when
    the history is empty, and once there is a first snapshot no further
    operation changes it. *)
Theorem history_cursor_invariant :
  forall ops : list HistoryOp,
    let s := runHistory ops initialState in
    (-1 <= historyIndex s <= Z.of_nat (length (history s)) - 1)%Z
    /\ (historyIndex s = (-1)%Z <-> history s = [])
    /\ (forall (more : list HistoryOp) (a : File),
          originalImage s = Some a ->
          originalImage (runHistory more s) = Some a).
Proof.
  intros ops s.
  assert (Hi : cursorInv s) by (apply cursorInv_run, cursorInv_initial).
  destruct Hi as [Hr He]. split; [exact Hr|]. split; [exact He|].
  intros more a Ho. apply originalImage_run; [split; assumption | exact Ho].
Qed.

Lemma history_cursor_invariant_example :
  let s := runHistory [OpAppend fileA; OpAppend fileB; OpUndo] initialState in
  historyIndex s = 0%Z
  /\ originalImage (runHistory [OpAppend fileC; OpRedo; OpReset] s) = Some fileA.
Proof.
  intros s. split; [reflexivity|].
  destruct (history_cursor_invariant [OpAppend fileA; OpAppend fileB; OpUndo])
    as [_ [_ H]].
  apply H. reflexivity.
Defined.

(** C10: when they fire, undo and redo move the cursor by one, clear the
    hotspot in both coordinate spaces and the secondary image, put the
    combine placement back to its default, and leave everything else,
    the snapshot list included, as it was. *)
Theorem undo_redo_frame :
  forall s : AppState,
    ((0 < historyIndex s)%Z ->
       handleUndo s =
         mkApp (history s) (historyIndex s - 1) (prompt s) (loadingMessage s)
               (error s) None None (activeTab s) None (crop s)
               (completedCrop s) (imgRef s) (magicFillPrompt s)
               (magicFillMask s) (freestyleMask s) Blend)
    /\ ((historyIndex s < Z.of_nat (length (history s)) - 1)%Z ->
       handleRedo s =
         mkApp (history s) (historyIndex s + 1) (prompt s) (loadingMessage s)
               (error s) None None (activeTab s) None (crop s)
               (completedCrop s) (imgRef s) (magicFillPrompt s)
               (magicFillMask s) (freestyleMask s) Blend).
Proof.
  intros s. split; intros H.
  - unfold handleUndo, canUndo.
    apply Z.ltb_lt in H. rewrite H. reflexivity.
  - unfold handleRedo, canRedo.
    apply Z.ltb_lt in H. rewrite H. reflexivity.
Qed.

Lemma undo_redo_frame_example :
  history (handleUndo stateABC) = [fileA; fileB; fileC]
  /\ historyIndex (handleUndo stateABC) = 0%Z
  /\ historyIndex (handleRedo stateABC) = 2%Z
  /\ secondaryImage (handleRedo (setSecondaryImage (Some fileD) stateABC)) = None.
Proof.
  destruct (undo_redo_frame stateABC) as [Hu Hr].
  destruct (undo_redo_frame (setSecondaryImage (Some fileD) stateABC))
    as [_ Hr'].
  rewrite Hu by (simpl; lia). rewrite Hr by (simpl; lia).
  rewrite Hr' by (simpl; lia).
  repeat split; reflexivity.
Defined.

(** ** Point edit: validation *)

Lemma trim_empty : JS.trim EmptyString = EmptyString.
Proof. reflexivity. Qed.

(** C7: with an instruction that is empty (or only white space) or with no
    hotspot selected, [handleGenerate] issues no call to the service, and
    the state it leaves differs from the old one in the error message
    only: no snapshot is appended and nothing else changes. *)
Theorem handleGenerate_validation :
  forall s : AppState,
    JS.trim (prompt s) = EmptyString \/ editHotspot s = None ->
    snd (handleGenerate s) = None
    /\ (exists msg : ErrorMsg, fst (handleGenerate s) = setError (Some msg) s)
    /\ history (fst (handleGenerate s)) = history s
    /\ historyIndex (fst (handleGenerate s)) = historyIndex s
    /\ loadingMessage (fst (handleGenerate s)) = loadingMessage s.
Proof.
  intros s H. unfold handleGenerate.
  destruct (currentImage s) as [image|].
  - destruct (JS.truthy (JS.trim (prompt s))) eqn:Et; simpl negb; cbv iota.
    + destruct (editHotspot s) as [hs|] eqn:Eh.
      * destruct H as [H|H]; [rewrite H in Et|]; discriminate.
      * simpl. repeat split. exists ErrNoHotspot. reflexivity.
    + simpl. repeat split. exists ErrNoPrompt. reflexivity.
  - simpl. repeat split. exists ErrNoImageLoaded. reflexivity.
Qed.

Lemma handleGenerate_validation_example :
  snd (handleGenerate (setPrompt "  " stateABC)) = None
  /\ snd (handleGenerate (setPrompt "make the shirt blue" stateABC)) = None
  /\ error (fst (handleGenerate (setPrompt "make the shirt blue" stateABC)))
     = Some ErrNoHotspot.
Proof.
  split; [|split].
  - apply (handleGenerate_validation (setPrompt "  " stateABC)).
    left. reflexivity.
  - apply (handleGenerate_validation
             (setPrompt "make the shirt blue" stateABC)).
    right. reflexivity.
  - reflexivity.
Defined.

(** With both present the call is issued, on the current snapshot. *)
Lemma handleGenerate_issues_call (s : AppState) (image : File) (hs : Z * Z) :
  currentImage s = Some image ->
  JS.truthy (JS.trim (prompt s)) = true ->
  editHotspot s = Some hs ->
  snd (handleGenerate s) = Some (generateEditedImage image (prompt s) hs).
Proof.
  intros Hc Ht Hh. unfold handleGenerate. rewrite Hc, Ht, Hh. reflexivity.
Qed.

(** ** Hotspot remapping *)

Lemma Math_round_le (p q : Q) :
  (p <= q)%Q -> (JS.Math_round p <= JS.Math_round q)%Z.
Proof.
  intros H. unfold JS.Math_round. apply Qfloor_resp_le.
  apply Qplus_le_compat; [exact H | apply Qle_refl].
Qed.

Lemma natQ_nonneg (n : nat) : (0 <= natQ n)%Q.
Proof.
  unfold natQ. change 0%Q with (inject_Z 0). rewrite <- Zle_Qle. lia.
Qed.





(** ** Lists, bitmaps and image data *)

Lemma mapi_from_length {A B} (f : nat -> A -> B) (l : list A) (i : nat) :
  length (mapi_from f i l) = length l.
Proof.
  revert i. induction l as [|a l IH]; intros i; simpl; [|rewrite IH]; reflexivity.
Qed.

Lemma mapi_length {A B} (f : nat -> A -> B) (l : list A) :
  length (mapi f l) = length l.
Proof. apply mapi_from_length. Qed.

Lemma mapi_from_nth {A B} (f : nat -> A -> B) (l : list A) (i k : nat)
    (da : A) (db : B) :
  k < length l ->
  nth k (mapi_from f i l) db = f (i + k) (nth k l da).
Proof.
  revert i k. induction l as [|a l IH]; intros i k Hk; simpl in Hk; [lia|].
  destruct k as [|k]; simpl.
  - rewrite Nat.add_0_r. reflexivity.
  - rewrite IH by lia. f_equal. lia.
Qed.

Lemma mapi_nth {A B} (f : nat -> A -> B) (l : list A) (k : nat)
    (da : A) (db : B) :
  k < length l -> nth k (mapi f l) db = f k (nth k l da).
Proof. intros Hk. unfold mapi. rewrite mapi_from_nth with (da := da); auto. Qed.

Lemma byteAt_skip (p : Pixel) (d : list N) (i : nat) :
  byteAt (R p :: G p :: B p :: A p :: d) (4 + i) = byteAt d i.
Proof. reflexivity. Qed.

Lemma pixelAt_flat (w h : nat) (l : list Pixel) (k : nat) :
  pixelAt (mkImageData w h (flat_map bytesOf l)) k = nth k l transparent.
Proof.
  unfold pixelAt. simpl data. revert k.
  induction l as [|p l IH]; intros k.
  - simpl. unfold byteAt. destruct k; simpl; reflexivity.
  - destruct k as [|k].
    + destruct p; reflexivity.
    + simpl flat_map. unfold bytesOf at 1. simpl app.
      replace (4 * S k) with (4 + 4 * k) by lia.
      rewrite <- !Nat.add_assoc. rewrite !byteAt_skip.
      rewrite IH. reflexivity.
Qed.

Lemma markPainted_flat (v : N) (l : list Pixel) :
  markPainted v (flat_map bytesOf l) = flat_map bytesOf (map (markPixel v) l).
Proof.
  induction l as [|p l IH]; [reflexivity|].
  simpl. rewrite IH. unfold markPixel.
  destruct (0 <? A p)%N; reflexivity.
Qed.

Lemma some_nonZero_flat (l : list Pixel) :
  JS.some nonZero (flat_map bytesOf l) = true <->
  exists p, In p l /\ (R p <> 0 \/ G p <> 0 \/ B p <> 0 \/ A p <> 0)%N.
Proof.
  unfold JS.some. rewrite existsb_exists. split.
  - intros [b [Hin Hb]]. apply in_flat_map in Hin.
    destruct Hin as [p [Hp Hbp]]. exists p. split; [exact Hp|].
    unfold nonZero in Hb. apply negb_true_iff, N.eqb_neq in Hb.
    simpl in Hbp. destruct Hbp as [H|[H|[H|[H|[]]]]]; subst b; tauto.
  - intros [p [Hp Hc]].
    assert (Hex : exists b, In b (bytesOf p) /\ b <> 0%N).
    { destruct Hc as [H|[H|[H|H]]];
        [exists (R p) | exists (G p) | exists (B p) | exists (A p)];
        (split; [simpl; auto 6 | exact H]). }
    destruct Hex as [b [Hb Hnz]]. exists b. split.
    + apply in_flat_map. exists p. split; assumption.
    + unfold nonZero. apply negb_true_iff, N.eqb_neq. exact Hnz.
Qed.

(** A block as large as the canvas covers every pixel. *)
Lemma blit_full_nth (combine : Pixel -> Pixel -> Pixel) (sw sh : nat)
    (src : nat -> Pixel) (c : Canvas) (k : nat) :
  wfCanvas c -> sw = width c -> sh = height c -> k < sw * sh ->
  nth k (pixels (blit combine sw sh src c)) transparent
  = combine (src k) (nth k (pixels c) transparent).
Proof.
  unfold wfCanvas. intros Hwf Hsw Hsh Hk. subst sw sh.
  unfold blit. simpl pixels.
  rewrite mapi_nth with (da := transparent) by lia.
  assert (Hw : width c <> 0) by (intro H0; rewrite H0 in Hk; simpl in Hk; lia).
  assert (Hx : k mod width c < width c) by (apply Nat.mod_upper_bound; exact Hw).
  assert (Hy : k / width c < height c)
    by (apply Nat.Div0.div_lt_upper_bound; lia).
  apply Nat.ltb_lt in Hx. apply Nat.ltb_lt in Hy. rewrite Hx, Hy. simpl.
  f_equal. f_equal. rewrite (Nat.div_mod_eq k (width c)) at 3. lia.
Qed.

Lemma blit_length (combine : Pixel -> Pixel -> Pixel) (sw sh : nat)
    (src : nat -> Pixel) (c : Canvas) :
  length (pixels (blit combine sw sh src c)) = length (pixels c).
Proof. unfold blit. simpl. apply mapi_length. Qed.

Lemma list_eq_nth {A} (d : A) (l1 l2 : list A) :
  length l1 = length l2 ->
  (forall k, k < length l1 -> nth k l1 d = nth k l2 d) ->
  l1 = l2.
Proof. intros Hl Hn. apply nth_ext with (d := d) (d' := d); assumption. Qed.

(** Putting back image data read from a canvas of the same size restores
    that canvas' bitmap, whatever was drawn in between. *)
Lemma putImageData_getImageData (c0 c : Canvas) :
  wfCanvas c0 -> wfCanvas c ->
  width c = width c0 -> height c = height c0 ->
  pixels (putImageData (getImageData c0) c) = pixels c0.
Proof.
  intros H0 H Hw Hh. unfold putImageData, getImageData. simpl iwidth. simpl iheight.
  apply list_eq_nth with (d := transparent).
  - rewrite blit_length. unfold wfCanvas in *. rewrite H, H0, Hw, Hh.
    reflexivity.
  - intros k Hk. rewrite blit_length in Hk.
    rewrite blit_full_nth; auto.
    + apply pixelAt_flat.
    + unfold wfCanvas in H. rewrite <- Hw, <- Hh, <- H. exact Hk.
Qed.

(** ** The paint flag after a stroke *)

Lemma maskOf_setMaskOf (t : Tab) (m : MaskState) (s : AppState) :
  maskOf t (setMaskOf t m s) = m.
Proof. destruct t; reflexivity. Qed.

Lemma activeTab_setMaskOf (t : Tab) (m : MaskState) (s : AppState) :
  activeTab (setMaskOf t m s) = activeTab s.
Proof. destruct t; reflexivity. Qed.

Lemma loadingMessage_setMaskOf (t : Tab) (m : MaskState) (s : AppState) :
  loadingMessage (setMaskOf t m s) = loadingMessage s.
Proof. destruct t; reflexivity. Qed.





(** ** Mask rasterisation *)

Lemma source_over_painted (p : Pixel) :
  (0 < A p)%N -> source_over p transparent = p.
Proof.
  intros Hp. destruct p as [r g b a]. simpl in Hp. unfold source_over. simpl.
  assert (Hch : forall c : N, ((c * a * 255 + 0) / ((a + 0) * 255) = c)%N).
  { intros c. rewrite !N.add_0_r, <- N.mul_assoc.
    apply N.div_mul. lia. }
  rewrite !Hch. rewrite N.add_0_r. reflexivity.
Qed.

Lemma source_over_unpainted (p : Pixel) :
  A p = 0%N -> source_over p transparent = transparent.
Proof.
  intros Hp. destruct p as [r g b a]. simpl in Hp. subst a.
  unfold source_over. simpl. rewrite !N.mul_0_r. reflexivity.
Qed.

Lemma createCanvas_wf (w h : nat) : wfCanvas (createCanvas w h).
Proof. unfold wfCanvas, createCanvas. simpl. apply repeat_length. Qed.

Lemma blit_wf (combine : Pixel -> Pixel -> Pixel) (sw sh : nat)
    (src : nat -> Pixel) (c : Canvas) :
  wfCanvas c -> wfCanvas (blit combine sw sh src c).
Proof.
  unfold wfCanvas. intros H. rewrite blit_length. exact H.
Qed.

Lemma nth_repeat_any {A} (a : A) (n k : nat) : nth k (repeat a n) a = a.
Proof.
  revert k. induction n as [|n IH]; intros [|k]; simpl; auto.
Qed.

Lemma nth_map_lt {A B} (f : A -> B) (l : list A) (k : nat) (da : A) (db : B) :
  k < length l -> nth k (map f l) db = f (nth k l da).
Proof.
  revert k. induction l as [|a l IH]; intros k Hk; simpl in Hk; [lia|].
  destruct k as [|k]; simpl; [reflexivity|]. apply IH. lia.
Qed.

Lemma nth_map_fix {A} (f : A -> A) (l : list A) (k : nat) (d : A) :
  f d = d -> nth k (map f l) d = f (nth k l d).
Proof.
  intros Hf. rewrite <- Hf at 1. apply map_nth.
Qed.

(** Drawing a surface onto a blank canvas of its own size. *)
Lemma drawImage_blank_nth (src : Canvas) (j : nat) :
  j < width src * height src ->
  nth j (pixels (drawImage src (createCanvas (width src) (height src))))
      transparent
  = source_over (nth j (pixels src) transparent) transparent.
Proof.
  intros Hj. unfold drawImage.
  rewrite blit_full_nth by (auto using createCanvas_wf).
  unfold createCanvas. cbn [pixels]. rewrite nth_repeat_any. reflexivity.
Qed.

Section Rasterisation.

Variable resample : nat -> nat -> nat -> nat -> nat -> nat.

(** The thresholded copy of the surface, pixel by pixel. *)
Lemma scratch_nth (v : N) (src : Canvas) (j : nat) :
  wfCanvas src ->
  let temp := drawImage src (createCanvas (width src) (height src)) in
  let img := getImageData temp in
  nth j (pixels (putImageData
                   (mkImageData (iwidth img) (iheight img)
                                (markPainted v (data img))) temp))
      transparent
  = markPixel v (source_over (nth j (pixels src) transparent) transparent).
Proof.
  intros Hwf temp img.
  assert (Hwt : wfCanvas temp) by (apply blit_wf, createCanvas_wf).
  destruct (Nat.lt_ge_cases j (width src * height src)) as [Hj|Hj].
  - unfold putImageData.
    rewrite blit_full_nth by (auto; exact Hj).
    subst img. unfold getImageData. cbn [data iwidth iheight].
    rewrite markPainted_flat, pixelAt_flat.
    rewrite nth_map_fix by reflexivity. f_equal.
    subst temp. apply drawImage_blank_nth. exact Hj.
  - rewrite nth_overflow.
    + rewrite (nth_overflow (pixels src)) by (unfold wfCanvas in Hwf; lia).
      reflexivity.
    + unfold putImageData. rewrite blit_length.
      unfold wfCanvas in Hwt. rewrite Hwt. exact Hj.
Qed.

Lemma buildMask_shape (bg : Pixel) (v : N) (image : HTMLImage) (src : Canvas) :
  width (buildMask resample bg v image src) = naturalWidth image
  /\ height (buildMask resample bg v image src) = naturalHeight image
  /\ length (pixels (buildMask resample bg v image src))
     = naturalWidth image * naturalHeight image.
Proof.
  unfold buildMask, drawImageScaled, fillRect. simpl.
  rewrite mapi_length, length_map, repeat_length. auto.
Qed.

(** Every pixel of the built mask, in terms of the surface pixel the
    resampling reads for it. *)
Lemma buildMask_nth (bg : Pixel) (v : N) (image : HTMLImage) (src : Canvas)
    (d : nat) :
  wfCanvas src ->
  d < naturalWidth image * naturalHeight image ->
  nth d (pixels (buildMask resample bg v image src)) transparent
  = source_over
      (markPixel v
         (source_over
            (nth (resample (width src) (height src)
                           (naturalWidth image) (naturalHeight image) d)
                 (pixels src) transparent)
            transparent))
      (source_over bg transparent).
Proof.
  intros Hwf Hd. unfold buildMask, drawImageScaled. simpl pixels.
  rewrite mapi_nth with (da := transparent)
    by (rewrite length_map, repeat_length; exact Hd).
  f_equal.
  - simpl width. simpl height. apply scratch_nth. exact Hwf.
  - rewrite nth_map_lt with (da := transparent)
      by (rewrite repeat_length; exact Hd).
    rewrite nth_repeat_any. reflexivity.
Qed.

Lemma mask_pixel_cases (bg : Pixel) (v : N) (image : HTMLImage) (src : Canvas)
    (d : nat) :
  wfCanvas src ->
  d < naturalWidth image * naturalHeight image ->
  let p := nth (resample (width src) (height src)
                         (naturalWidth image) (naturalHeight image) d)
               (pixels src) transparent in
  ((0 < A p)%N ->
     nth d (pixels (buildMask resample bg v image src)) transparent
     = source_over (mkPixel v v v 255) (source_over bg transparent))
  /\ (A p = 0%N ->
     nth d (pixels (buildMask resample bg v image src)) transparent
     = source_over transparent (source_over bg transparent)).
Proof.
  intros Hwf Hd p. split; intros Hp; rewrite buildMask_nth by assumption;
    fold p.
  - rewrite source_over_painted by exact Hp.
    unfold markPixel. apply N.ltb_lt in Hp. rewrite Hp. reflexivity.
  - rewrite source_over_unpainted by exact Hp. reflexivity.
Qed.



End Rasterisation.



(** ** Strokes and their undo *)

Lemma maskSurface_set (s : AppState) (m : MaskState) :
  maskSurface (setMaskOf (activeTab s) m s) = maskCanvasRef m.
Proof.
  unfold maskSurface. rewrite activeTab_setMaskOf, maskOf_setMaskOf.
  reflexivity.
Qed.

Lemma strokeStack_set (s : AppState) (m : MaskState) :
  strokeStack (setMaskOf (activeTab s) m s) = maskHistoryRef m.
Proof.
  unfold strokeStack. rewrite activeTab_setMaskOf, maskOf_setMaskOf.
  reflexivity.
Qed.

Lemma sameShape_refl (c : Canvas) : sameShape c c.
Proof. repeat split. Qed.

Lemma sameShape_trans (a b c : Canvas) :
  sameShape a b -> sameShape b c -> sameShape a c.
Proof. unfold sameShape. intuition congruence. Qed.

Lemma sameShape_wf (c c' : Canvas) : sameShape c c' -> wfCanvas c -> wfCanvas c'.
Proof. unfold sameShape, wfCanvas. intuition congruence. Qed.

Lemma pop_push {A} (l : list A) (x : A) : JS.pop (JS.push l x) = (l, Some x).
Proof.
  unfold JS.pop, JS.push. rewrite rev_app_distr. simpl.
  rewrite rev_involutive. reflexivity.
Qed.

(** Pointer down pushes the surface as it is then, and leaves it as it is. *)
Lemma startDrawing_spec (e : PointerInput) (s : AppState) (c : Canvas) :
  maskReady s c ->
  exists c',
    maskReady (startDrawing e s) c'
    /\ sameShape c c' /\ pixels c' = pixels c
    /\ strokeStack (startDrawing e s) = JS.push (strokeStack s) (getImageData c)
    /\ activeTab (startDrawing e s) = activeTab s.
Proof.
  intros [Ht [Hl [Hc Hwf]]]. unfold startDrawing, getCoords.
  unfold maskSurface in Hc. rewrite Hl, Ht, Hc. simpl orb. cbv iota.
  destruct (nativeEvent e) as [cx cy | [tx ty] others];
    (eexists; unfold maskReady;
     rewrite maskSurface_set, strokeStack_set, activeTab_setMaskOf,
             loadingMessage_setMaskOf;
     simpl; repeat split; auto).
Qed.

Section StrokeProofs.

Variable strokePixel :
  StrokeSettings -> list (Q * Q) -> nat -> nat -> nat -> Pixel -> Pixel.

(** A pointer move may repaint the surface but keeps its shape and leaves
    the stroke stack alone. *)
Lemma draw_spec (e : PointerInput) (s : AppState) (c : Canvas) :
  maskReady s c ->
  exists c',
    maskReady (draw strokePixel e s) c'
    /\ sameShape c c'
    /\ strokeStack (draw strokePixel e s) = strokeStack s
    /\ activeTab (draw strokePixel e s) = activeTab s.
Proof.
  intros Hr. pose proof Hr as [Ht [Hl [Hc Hwf]]].
  unfold wfCanvas in Hwf. unfold draw, getCoords. unfold maskSurface in Hc. rewrite Hc.
  destruct (isDrawingRef (maskOf (activeTab s) s)).
  - destruct (nativeEvent e) as [cx cy | [tx ty] others];
      (eexists; unfold maskReady;
       rewrite maskSurface_set, strokeStack_set, activeTab_setMaskOf,
               loadingMessage_setMaskOf;
       unfold wfCanvas, sameShape, stroke; repeat split;
       cbn [pixels width height]; rewrite ?mapi_length; auto).
  - exists c. split; [exact Hr|]. split; [apply sameShape_refl|]. split; reflexivity.
Qed.

Lemma draws_spec (es : list PointerInput) (s : AppState) (c : Canvas) :
  maskReady s c ->
  exists c',
    maskReady (fold_left (fun s' e => draw strokePixel e s') es s) c'
    /\ sameShape c c'
    /\ strokeStack (fold_left (fun s' e => draw strokePixel e s') es s)
       = strokeStack s
    /\ activeTab (fold_left (fun s' e => draw strokePixel e s') es s)
       = activeTab s.
Proof.
  revert s c. induction es as [|e es IH]; intros s c Hr; simpl.
  - exists c. split; [exact Hr|]. split; [apply sameShape_refl|]. split; reflexivity.
  - destruct (draw_spec e Hr) as [c1 [Hr1 [Hs1 [Hk1 Ht1]]]].
    destruct (IH _ _ Hr1) as [c2 [Hr2 [Hs2 [Hk2 Ht2]]]].
    exists c2. split; [exact Hr2|]. split; [eapply sameShape_trans; eassumption|].
    split; congruence.
Qed.

(** Pointer up (or leave) rescans the surface and leaves it as it is. *)
Lemma stopDrawing_spec (s : AppState) (c : Canvas) :
  maskReady s c ->
  exists c',
    maskReady (stopDrawing s) c'
    /\ sameShape c c' /\ pixels c' = pixels c
    /\ strokeStack (stopDrawing s) = strokeStack s
    /\ activeTab (stopDrawing s) = activeTab s.
Proof.
  intros Hr. pose proof Hr as [Ht [Hl [Hc Hwf]]].
  unfold stopDrawing. unfold maskSurface in Hc. rewrite Hc.
  destruct (isDrawingRef (maskOf (activeTab s) s)).
  - eexists. unfold maskReady.
    rewrite maskSurface_set, strokeStack_set, activeTab_setMaskOf,
            loadingMessage_setMaskOf.
    repeat split; auto.
  - exists c. split; [exact Hr|]. split; [apply sameShape_refl|].
    repeat split.
Qed.

(** A whole stroke pushes exactly one snapshot, the surface as it was at
    pointer down, and keeps the surface's shape. *)
Lemma strokeOnce_spec (g : PointerInput * list PointerInput) (s : AppState)
    (c : Canvas) :
  maskReady s c ->
  exists c',
    maskReady (strokeOnce strokePixel s g) c'
    /\ sameShape c c'
    /\ strokeStack (strokeOnce strokePixel s g)
       = JS.push (strokeStack s) (getImageData c)
    /\ activeTab (strokeOnce strokePixel s g) = activeTab s.
Proof.
  intros Hr. unfold strokeOnce.
  destruct (startDrawing_spec (fst g) Hr) as [c1 [Hr1 [Hs1 [_ [Hk1 Ht1]]]]].
  destruct (draws_spec (snd g) Hr1) as [c2 [Hr2 [Hs2 [Hk2 Ht2]]]].
  destruct (stopDrawing_spec Hr2) as [c3 [Hr3 [Hs3 [_ [Hk3 Ht3]]]]].
  exists c3. split; [exact Hr3|]. split.
  - eapply sameShape_trans; [|exact Hs3].
    eapply sameShape_trans; eassumption.
  - split; congruence.
Qed.

(** Undo pops the last snapshot and puts it back on the surface. *)
Lemma undoMaskStroke_spec (s : AppState) (c c' : Canvas)
    (st : list ImageData) :
  maskReady s c' ->
  strokeStack s = JS.push st (getImageData c) ->
  wfCanvas c -> sameShape c c' ->
  exists c'',
    maskReady (undoMaskStroke s s) c''
    /\ pixels c'' = pixels c /\ sameShape c c''
    /\ strokeStack (undoMaskStroke s s) = st
    /\ activeTab (undoMaskStroke s s) = activeTab s.
Proof.
  intros [Ht [Hl [Hc Hwf']]] Hst Hwf [Hw [Hh Hlen]].
  unfold undoMaskStroke. unfold maskSurface in Hc. unfold strokeStack in Hst.
  rewrite Hc, Hst.
  replace (0 <? length (JS.push st (getImageData c))) with true
    by (unfold JS.push; rewrite length_app; simpl;
        symmetry; apply Nat.ltb_lt; lia).
  rewrite pop_push.
  exists (putImageData (getImageData c) c'). unfold maskReady.
  rewrite maskSurface_set, strokeStack_set, activeTab_setMaskOf,
          loadingMessage_setMaskOf.
  assert (Hp : pixels (putImageData (getImageData c) c') = pixels c)
    by (apply putImageData_getImageData; assumption).
  assert (Hs : sameShape c (putImageData (getImageData c) c')).
  { unfold sameShape. rewrite Hp. cbn [width height putImageData blit].
    auto. }
  split.
  - split; [exact Ht|]. split; [exact Hl|]. split; [reflexivity|].
    apply (sameShape_wf Hs Hwf).
  - split; [exact Hp|]. split; [exact Hs|]. split; reflexivity.
Qed.

Lemma strokes_cons (g : PointerInput * list PointerInput)
    (gs : list (PointerInput * list PointerInput)) (s : AppState) :
  strokes strokePixel (g :: gs) s
  = strokes strokePixel gs (strokeOnce strokePixel s g).
Proof. reflexivity. Qed.

(** [n] strokes followed by [n] undos. *)
Lemma strokes_then_undos (gs : list (PointerInput * list PointerInput)) :
  forall (s : AppState) (c : Canvas),
    maskReady s c ->
    exists c',
      maskReady (undoStrokes (length gs) (strokes strokePixel gs s)) c'
      /\ pixels c' = pixels c /\ sameShape c c'
      /\ strokeStack (undoStrokes (length gs) (strokes strokePixel gs s))
         = strokeStack s
      /\ activeTab (undoStrokes (length gs) (strokes strokePixel gs s))
         = activeTab s.
Proof.
  induction gs as [|g gs IH]; intros s c Hr.
  - exists c. split; [exact Hr|]. split; [reflexivity|].
    split; [apply sameShape_refl|]. split; reflexivity.
  - rewrite strokes_cons. cbn [length undoStrokes].
    destruct (strokeOnce_spec g Hr) as [c1 [Hr1 [Hs1 [Hk1 Ht1]]]].
    destruct (IH _ _ Hr1) as [c2 [Hr2 [Hp2 [Hs2 [Hk2 Ht2]]]]].
    rewrite Hk1 in Hk2.
    destruct Hr as [_ [_ [_ Hwf]]].
    destruct (@undoMaskStroke_spec _ c c2 _ Hr2 Hk2 Hwf
                (sameShape_trans Hs1 Hs2)) as [c3 [Hr3 [Hp3 [Hs3 [Hk3 Ht3]]]]].
    exists c3. split; [exact Hr3|]. split; [exact Hp3|].
    split; [exact Hs3|]. split; [exact Hk3|]. congruence.
Qed.

Lemma surfacePixels_ready (s : AppState) (c : Canvas) :
  maskReady s c -> surfacePixels s = pixels c.
Proof.
  intros [_ [_ [Hc _]]]. unfold surfacePixels. rewrite Hc. reflexivity.
Qed.

(** C6: pointer down pushes the surface as it is; undoing a stroke puts
    that snapshot back, so the surface is pixel for pixel what it was
    before the stroke and the stack is what it was; [n] strokes undone
    [n] times give back the surface they started from, fully transparent
    if it was clear; and with an empty stack undo changes nothing. *)
Theorem undoMaskStroke_restores :
  forall (s : AppState) (c : Canvas),
    isMaskTab (activeTab s) = true ->
    loadingMessage s = None ->
    maskSurface s = Some c ->
    wfCanvas c ->
    (forall e, strokeStack (startDrawing e s)
               = JS.push (strokeStack s) (getImageData c))
    /\ (forall g,
          let s' := strokeOnce strokePixel s g in
          surfacePixels (undoMaskStroke s' s') = pixels c
          /\ strokeStack (undoMaskStroke s' s') = strokeStack s)
    /\ (forall gs,
          let s' := undoStrokes (length gs) (strokes strokePixel gs s) in
          surfacePixels s' = pixels c
          /\ strokeStack s' = strokeStack s
          /\ ((forall p, In p (pixels c) -> p = transparent) ->
              forall p, In p (surfacePixels s') -> p = transparent))
    /\ (forall s0 : AppState, strokeStack s0 = [] -> undoMaskStroke s0 s0 = s0).
Proof.
  intros s c Ht Hl Hc Hwf.
  assert (Hr : maskReady s c) by (repeat split; assumption).
  assert (Hn : forall gs,
          let s' := undoStrokes (length gs) (strokes strokePixel gs s) in
          surfacePixels s' = pixels c /\ strokeStack s' = strokeStack s).
  { intros gs s'. subst s'.
    destruct (strokes_then_undos gs Hr) as [c' [Hr' [Hp [_ [Hk _]]]]].
    split; [|exact Hk]. rewrite (surfacePixels_ready Hr'). exact Hp. }
  split; [|split; [|split]].
  - intros e. destruct (startDrawing_spec e Hr) as [c' [_ [_ [_ [Hk _]]]]].
    exact Hk.
  - intros g. exact (Hn [g]).
  - intros gs s'. destruct (Hn gs) as [Hp Hk].
    split; [exact Hp|]. split; [exact Hk|].
    intros Hclear p Hin. apply Hclear. rewrite <- Hp. exact Hin.
  - intros s0 H0. unfold undoMaskStroke. unfold strokeStack in H0.
    rewrite H0. simpl.
    destruct (maskCanvasRef (maskOf (activeTab s0) s0)); reflexivity.
Qed.

End StrokeProofs.

Lemma undoMaskStroke_restores_example :
  surfacePixels
    (undoStrokes 2
       (strokes floodStroke
          [(pointerAt 0 0, [pointerAt 1 0]); (pointerAt 1 0, [])]
          paintingState))
  = [transparent; transparent].
Proof.
  destruct (@undoMaskStroke_restores floodStroke paintingState
              (createCanvas 2 1) eq_refl eq_refl eq_refl eq_refl)
    as [_ [_ [Hn _]]].
  destruct (Hn [(pointerAt 0 0, [pointerAt 1 0]); (pointerAt 1 0, [])])
    as [Hp _].
  exact Hp.
Defined.

(** ** Free-instruction routing *)

Section Routing.

Variable resample : nat -> nat -> nat -> nat -> nat -> nat.

(** With the flag set and both elements mounted the edit goes to the
    mask-fill operation, with the protect-mode mask. *)
Lemma handleApplyFreestyle_masked (p : string) (s : AppState) (image0 : File)
    (sourceCanvas : Canvas) (image : HTMLImage) :
  currentImage s = Some image0 ->
  isMaskDrawn (freestyleMask s) = true ->
  maskCanvasRef (freestyleMask s) = Some sourceCanvas ->
  imgRef s = Some image ->
  snd (handleApplyFreestyle resample p s)
  = Some (generateMagicFillImage image0
            (freestyleMaskCanvas resample image sourceCanvas) p).
Proof.
  intros Hc Hd Hm Hi. unfold handleApplyFreestyle.
  rewrite Hc, Hd, Hm, Hi. reflexivity.
Qed.

(** With the flag clear it goes to the maskless operation, with the same
    instruction and no reference image. *)
Lemma handleApplyFreestyle_maskless (p : string) (s : AppState)
    (image0 : File) :
  currentImage s = Some image0 ->
  isMaskDrawn (freestyleMask s) = false ->
  snd (handleApplyFreestyle resample p s)
  = Some (generateAdjustedImage image0 p None).
Proof.
  intros Hc Hd. unfold handleApplyFreestyle. rewrite Hc, Hd. reflexivity.
Qed.

End Routing.

(** [clearMask] does nothing when the canvas of its tab is not mounted. *)
Lemma clearMask_unmounted (cl s : AppState) :
  maskCanvasRef (maskOf (activeTab cl) s) = None -> clearMask cl s = s.
Proof. intros H. unfold clearMask. rewrite H. reflexivity. Qed.

(** While a request is loading no mask canvas is mounted. *)
Lemma commitRender_loading (img : HTMLImage) (fresh : Canvas) (s : AppState)
    (b : Busy) :
  loadingMessage s = Some b ->
  maskCanvasRef (magicFillMask (commitRender img fresh s)) = None
  /\ maskCanvasRef (freestyleMask (commitRender img fresh s)) = None.
Proof.
  intros Hl. unfold commitRender, attach, maskCanvasShown, isNone.
  rewrite Hl. simpl. rewrite !andb_false_r. split; reflexivity.
Qed.

(** So the answer to a freestyle request, arriving under the loading
    overlay, leaves the protect mask's flag and stroke stack as they
    were. *)
Lemma freestyle_resume_under_overlay (cl s : AppState) (img : HTMLImage)
    (fresh : Canvas) (b : Busy) (f : File) :
  activeTab cl = Freestyle ->
  loadingMessage s = Some b ->
  let s' := handleApplyFreestyle_resume cl (inr f) (commitRender img fresh s) in
  isMaskDrawn (freestyleMask s') = isMaskDrawn (freestyleMask s)
  /\ maskHistoryRef (freestyleMask s') = maskHistoryRef (freestyleMask s)
  /\ canUndoMask (freestyleMask s') = canUndoMask (freestyleMask s).
Proof.
  intros Ht Hl s'. subst s'. unfold handleApplyFreestyle_resume.
  destruct (commitRender_loading img fresh s Hl) as [_ Hf].
  rewrite clearMask_unmounted.
  - repeat split.
  - rewrite Ht. exact Hf.
Qed.

(** C5, the code at a successful masked edit: the click routes the edit
    to the mask-fill operation with the inverted mask; the render that
    shows the loading overlay unmounts the protect canvas; the answer
    appends the new snapshot, but [clearMask] finds no canvas and clears
    nothing: flag, stroke stack and undo flag stay set; and after the next
    render, on a blank surface, a further instruction is again routed to
    the mask-fill operation, now with an all-white mask. *)
Theorem freestyle_success_keeps_mask :
  snd (handleApplyFreestyle nearest "make it sepia" protectState)
  = Some (generateMagicFillImage fileB
            (mkCanvas 4 2 [white; white; black; black;
                           white; white; black; black] [])
            "make it sepia")
  /\ maskCanvasRef (freestyleMask protectLoading) = None
  /\ history protectAnswered = [fileA; fileB; fileD]
  /\ loadingMessage protectAnswered = None
  /\ isMaskDrawn (freestyleMask protectAnswered) = true
  /\ maskHistoryRef (freestyleMask protectAnswered)
     = [getImageData (createCanvas 2 1)]
  /\ canUndoMask (freestyleMask protectAnswered) = true
  /\ surfacePixels protectDone = [transparent; transparent]
  /\ snd (handleApplyFreestyle nearest "add a hat" protectDone)
     = Some (generateMagicFillImage fileD
               (mkCanvas 4 2 (repeat white 8) []) "add a hat").
Proof.
  repeat split; vm_compute; reflexivity.
Qed.

(** * Further properties of the component *)

(** ** History: how the operations compose *)

Lemma sameCursor_refl (s : AppState) : sameCursor s s.
Proof. split; reflexivity. Qed.

Lemma sameCursor_trans (a b c : AppState) :
  sameCursor a b -> sameCursor b c -> sameCursor a c.
Proof. unfold sameCursor. intuition congruence. Qed.

Lemma sameCursor_inv (s s' : AppState) :
  sameCursor s s' -> cursorInv s -> cursorInv s'.
Proof.
  unfold sameCursor, cursorInv. intros [Hh Hi]. rewrite Hh, Hi. tauto.
Qed.


(** The snapshot list and cursor [addImageToHistory] leaves come from the
    render it closed over, whatever the live state is. *)
Lemma addImageToHistory_closure (cl s : AppState) (f : File) :
  (-1 <= historyIndex cl)%Z ->
  history (addImageToHistory cl f s)
  = firstn (Z.to_nat (historyIndex cl + 1)) (history cl) ++ [f]
  /\ historyIndex (addImageToHistory cl f s)
     = Z.of_nat (length (firstn (Z.to_nat (historyIndex cl + 1)) (history cl))).
Proof.
  intros Hc. unfold addImageToHistory, JS.push. simpl.
  rewrite slice_prefix by lia. split; [reflexivity|].
  rewrite length_app. simpl length. lia.
Qed.

Lemma cursorInv_addImageToHistory (cl s : AppState) (f : File) :
  (-1 <= historyIndex cl)%Z -> cursorInv (addImageToHistory cl f s).
Proof.
  intros Hc. destruct (addImageToHistory_closure cl s f Hc) as [Hh Hi].
  unfold cursorInv. rewrite Hh, Hi, length_app. simpl length.
  split; [lia|]. split; [lia|].
  intros H. destruct (firstn _ _); discriminate H.
Qed.

Lemma currentImage_appended (cl s : AppState) (f : File) :
  (-1 <= historyIndex cl)%Z ->
  currentImage (addImageToHistory cl f s) = Some f.
Proof.
  intros Hc. destruct (addImageToHistory_closure cl s f Hc) as [Hh Hi].
  unfold currentImage. rewrite Hh, Hi.
  remember (firstn (Z.to_nat (historyIndex cl + 1)) (history cl)) as l.
  replace (Z.of_nat (length l)) with (Z.of_nat (length (l ++ [f])) - 1)%Z
    by (rewrite length_app; simpl length; lia).
  apply index_app_last.
Qed.

(** What the answer handlers wrap around the appended state leaves the
    snapshot list and the cursor alone. *)
Lemma sameCursor_generateDone (a : AppState) :
  sameCursor a (setLoadingMessage None
                  (setDisplayHotspot None (setEditHotspot None a))).
Proof. split; reflexivity. Qed.

Lemma sameCursor_fillDone (a : AppState) :
  sameCursor a (setLoadingMessage None (setMagicFillPrompt EmptyString a)).
Proof. split; reflexivity. Qed.

Lemma sameCursor_loaded (a : AppState) :
  sameCursor a (setLoadingMessage None a).
Proof. split; reflexivity. Qed.

(** Where undo and redo fire they move the cursor by one and keep the
    snapshot list. *)
Lemma handleUndo_cursor (s : AppState) :
  canUndo s = true ->
  history (handleUndo s) = history s
  /\ historyIndex (handleUndo s) = (historyIndex s - 1)%Z.
Proof. intros H. unfold handleUndo. rewrite H. split; reflexivity. Qed.

Lemma handleRedo_cursor (s : AppState) :
  canRedo s = true ->
  history (handleRedo s) = history s
  /\ historyIndex (handleRedo s) = (historyIndex s + 1)%Z.
Proof. intros H. unfold handleRedo. rewrite H. split; reflexivity. Qed.

(** X1: undo and redo are inverse to each other on the cursor wherever
    both can fire, neither touches the snapshot list, and each is the
    identity at its end of the history. *)
Theorem undo_redo_roundtrip :
  forall s : AppState,
    ((0 < historyIndex s <= Z.of_nat (length (history s)) - 1)%Z ->
       sameCursor s (handleRedo (handleUndo s)))
    /\ ((0 <= historyIndex s < Z.of_nat (length (history s)) - 1)%Z ->
       sameCursor s (handleUndo (handleRedo s)))
    /\ ((historyIndex s <= 0)%Z -> handleUndo s = s)
    /\ ((Z.of_nat (length (history s)) - 1 <= historyIndex s)%Z ->
       handleRedo s = s).
Proof.
  intros s. split; [|split; [|split]].
  - intros H. unfold handleUndo, canUndo.
    replace (0 <? historyIndex s)%Z with true by (symmetry; apply Z.ltb_lt; lia).
    unfold handleRedo, canRedo. simpl.
    replace (historyIndex s - 1 <? Z.of_nat (length (history s)) - 1)%Z
      with true by (symmetry; apply Z.ltb_lt; lia).
    split; simpl; [reflexivity | lia].
  - intros H. unfold handleRedo, canRedo.
    replace (historyIndex s <? Z.of_nat (length (history s)) - 1)%Z
      with true by (symmetry; apply Z.ltb_lt; lia).
    unfold handleUndo, canUndo. simpl.
    replace (0 <? historyIndex s + 1)%Z with true
      by (symmetry; apply Z.ltb_lt; lia).
    split; simpl; [reflexivity | lia].
  - intros H. unfold handleUndo, canUndo.
    replace (0 <? historyIndex s)%Z with false
      by (symmetry; apply Z.ltb_ge; lia).
    reflexivity.
  - intros H. unfold handleRedo, canRedo.
    replace (historyIndex s <? Z.of_nat (length (history s)) - 1)%Z
      with false by (symmetry; apply Z.ltb_ge; lia).
    reflexivity.
Qed.

Lemma undo_redo_roundtrip_example :
  historyIndex (handleRedo (handleUndo stateABC)) = 1%Z
  /\ handleRedo (handleRedo stateABC) = handleRedo stateABC.
Proof.
  destruct (undo_redo_roundtrip stateABC) as [H1 _].
  destruct (undo_redo_roundtrip (handleRedo stateABC)) as [_ [_ [_ H4]]].
  split.
  - apply H1. simpl. lia.
  - apply H4. simpl. lia.
Defined.

(** X2: a new snapshot ends the history: after [addImageToHistory] redo
    is impossible, undo is possible exactly when there was a snapshot
    before, the history is one longer than the old cursor position, and
    one undo shows the image that was current before the append. *)
Theorem append_then_undo :
  forall (s : AppState) (f : File),
    cursorInv s ->
    let s' := addImageToHistory s f s in
    canRedo s' = false
    /\ canUndo s' = (0 <=? historyIndex s)%Z
    /\ Z.of_nat (length (history s')) = (historyIndex s + 2)%Z
    /\ ((0 <= historyIndex s)%Z ->
        currentImage (handleUndo s') = currentImage s
        /\ currentImage (handleRedo (handleUndo s')) = Some f).
Proof.
  intros s f [Hr He]. cbv zeta.
  destruct (addImageToHistory_closure s s f) as [Hh Hi]; [lia|].
  remember (addImageToHistory s f s) as s' eqn:Es. clear Es.
  assert (Hlen : length (firstn (Z.to_nat (historyIndex s + 1)) (history s))
                 = Z.to_nat (historyIndex s + 1))
    by (rewrite length_firstn; lia).
  rewrite Hlen in Hi.
  assert (Hl' : Z.of_nat (length (history s')) = (historyIndex s + 2)%Z)
    by (rewrite Hh, length_app, Hlen; simpl length; lia).
  split; [|split; [|split]].
  - unfold canRedo. rewrite Hl', Hi. apply Z.ltb_ge. lia.
  - unfold canUndo. rewrite Hi.
    destruct (0 <=? historyIndex s)%Z eqn:E.
    + apply Z.leb_le in E. apply Z.ltb_lt. lia.
    + apply Z.leb_gt in E. apply Z.ltb_ge. lia.
  - exact Hl'.
  - intros H0.
    assert (Hu : canUndo s' = true)
      by (unfold canUndo; rewrite Hi; apply Z.ltb_lt; lia).
    destruct (handleUndo_cursor s' Hu) as [Huh Hui].
    assert (Hui' : historyIndex (handleUndo s') = historyIndex s)
      by (rewrite Hui, Hi; lia).
    assert (Hrd : canRedo (handleUndo s') = true)
      by (unfold canRedo; rewrite Huh, Hui', Hl'; apply Z.ltb_lt; lia).
    destruct (handleRedo_cursor _ Hrd) as [Hrh Hri].
    rewrite Huh in Hrh. rewrite Hui' in Hri.
    unfold currentImage. rewrite Hrh, Hri, Huh, Hui', Hh. split.
    + unfold JS.index.
      destruct (historyIndex s <? 0)%Z eqn:E; [reflexivity|].
      rewrite nth_error_app1 by lia.
      rewrite nth_error_firstn.
      replace (Z.to_nat (historyIndex s) <? Z.to_nat (historyIndex s + 1))
        with true by (symmetry; apply Nat.ltb_lt; lia).
      reflexivity.
    + remember (firstn (Z.to_nat (historyIndex s + 1)) (history s)) as l.
      replace (historyIndex s + 1)%Z with (Z.of_nat (length (l ++ [f])) - 1)%Z
        by (rewrite length_app, Hlen; simpl length; lia).
      apply index_app_last.
Qed.

Lemma append_then_undo_example :
  canRedo (addImageToHistory stateABC fileD stateABC) = false
  /\ currentImage (handleUndo (addImageToHistory stateABC fileD stateABC))
     = Some fileB.
Proof.
  assert (Hinv : cursorInv stateABC).
  { unfold cursorInv. simpl. split; [lia|]. split; discriminate. }
  destruct (append_then_undo fileD Hinv) as [H1 [_ [_ H4]]].
  split; [exact H1|].
  destruct H4 as [H _]; [simpl; lia|]. exact H.
Defined.

(** X3: reset shows the original upload again without dropping any
    snapshot: afterwards the current image is the first snapshot and undo
    is impossible, while redo can still reach every later snapshot; on
    an empty history reset changes nothing. *)
Theorem reset_shows_original :
  forall s : AppState,
    cursorInv s ->
    currentImage (handleReset s) = originalImage s
    /\ history (handleReset s) = history s
    /\ canUndo (handleReset s) = false
    /\ canRedo (handleReset s) = (1 <? length (history s))
    /\ (history s = [] -> handleReset s = s).
Proof.
  intros s [Hr He]. unfold handleReset.
  destruct (history s) as [|h0 t] eqn:Hs.
  - simpl. assert (Hi : historyIndex s = (-1)%Z) by (apply He; reflexivity).
    unfold currentImage, originalImage, canUndo, canRedo.
    rewrite Hs, Hi. simpl. repeat split.
  - simpl length. replace (0 <? S (length t)) with true by reflexivity.
    unfold currentImage, originalImage, canUndo, canRedo. simpl.
    rewrite Hs. split; [reflexivity|]. split; [reflexivity|].
    split; [reflexivity|]. split; [|discriminate].
    simpl length. destruct (length t) as [|n].
    + reflexivity.
    + replace (1 <? S (S n)) with true by reflexivity.
      apply Z.ltb_lt. lia.
Qed.

Lemma reset_shows_original_example :
  currentImage (handleReset stateABC) = Some fileA
  /\ canRedo (handleReset stateABC) = true.
Proof.
  assert (Hinv : cursorInv stateABC).
  { unfold cursorInv. simpl. split; [lia|]. split; discriminate. }
  destruct (reset_shows_original Hinv) as [H1 [_ [_ [H4 _]]]].
  split; [exact H1 | exact H4].
Defined.

(** ** The cursor invariant in every reachable state *)

Lemma sameCursor_setMaskOf (t : Tab) (m : MaskState) (s : AppState) :
  sameCursor s (setMaskOf t m s).
Proof. destruct t; split; reflexivity. Qed.

Ltac split_matches :=
  repeat match goal with
         | |- context [match ?x with _ => _ end] => destruct x
         end.

Ltac same_cursor :=
  split_matches;
  first [ apply sameCursor_refl
        | apply sameCursor_setMaskOf
        | split; reflexivity ].

Lemma sameCursor_startDrawing (e : PointerInput) (s : AppState) :
  sameCursor s (startDrawing e s).
Proof. unfold startDrawing. same_cursor. Qed.

Lemma sameCursor_stopDrawing (s : AppState) : sameCursor s (stopDrawing s).
Proof. unfold stopDrawing. same_cursor. Qed.

Lemma sameCursor_clearMask (cl s : AppState) : sameCursor s (clearMask cl s).
Proof. unfold clearMask. same_cursor. Qed.

Lemma sameCursor_undoMaskStroke (cl s : AppState) :
  sameCursor s (undoMaskStroke cl s).
Proof. unfold undoMaskStroke. same_cursor. Qed.

Lemma sameCursor_handleImageClick (e : ClickEvent) (s : AppState) :
  sameCursor s (handleImageClick e s).
Proof. unfold handleImageClick. same_cursor. Qed.

Lemma sameCursor_handleGenerate (s : AppState) :
  sameCursor s (fst (handleGenerate s)).
Proof. unfold handleGenerate. same_cursor. Qed.

Lemma sameCursor_commitRender (img : HTMLImage) (fresh : Canvas)
    (s : AppState) :
  sameCursor s (commitRender img fresh s).
Proof. split; reflexivity. Qed.

Lemma cursorInv_handleImageUpload (f : File) (s : AppState) :
  cursorInv (handleImageUpload f s).
Proof. unfold cursorInv. simpl. split; [lia|]. split; discriminate. Qed.

Lemma cursorInv_handleUploadNew (s : AppState) : cursorInv (handleUploadNew s).
Proof. unfold cursorInv. simpl. split; [lia|]. tauto. Qed.

Lemma cursorInv_nth (past : list AppState) (s : AppState) (k : nat) :
  Forall cursorInv past -> cursorInv s -> cursorInv (nth k past s).
Proof.
  intros Hp Hs. destruct (nth_in_or_default k past s) as [Hin|Hd].
  - rewrite Forall_forall in Hp. apply Hp, Hin.
  - rewrite Hd. exact Hs.
Qed.

Section Reachable.

Variable strokePixel :
  StrokeSettings -> list (Q * Q) -> nat -> nat -> nat -> Pixel -> Pixel.

Variable resample : nat -> nat -> nat -> nat -> nat -> nat.

Lemma sameCursor_draw (e : PointerInput) (s : AppState) :
  sameCursor s (draw strokePixel e s).
Proof. unfold draw. same_cursor. Qed.

Lemma sameCursor_stepMask (s : AppState) (ev : MaskEvent) :
  sameCursor s (stepMask strokePixel s ev).
Proof.
  destruct ev; simpl;
    auto using sameCursor_startDrawing, sameCursor_draw,
               sameCursor_stopDrawing, sameCursor_undoMaskStroke,
               sameCursor_clearMask.
Qed.

Lemma sameCursor_handleApplyMagicFill (s : AppState) :
  sameCursor s (fst (handleApplyMagicFill resample s)).
Proof. unfold handleApplyMagicFill. same_cursor. Qed.

Lemma sameCursor_handleApplyFreestyle (p : string) (s : AppState) :
  sameCursor s (fst (handleApplyFreestyle resample p s)).
Proof. unfold handleApplyFreestyle. same_cursor. Qed.

(** A successful answer leaves the snapshot list and cursor
    [addImageToHistory] computed. *)
Lemma sameCursor_answers (cl s : AppState) (f : File) :
  sameCursor (addImageToHistory cl f s) (handleGenerate_resume cl (inr f) s)
  /\ sameCursor (addImageToHistory cl f s)
                (handleApplyMagicFill_resume cl (inr f) s)
  /\ sameCursor (addImageToHistory cl f s)
                (handleApplyFreestyle_resume cl (inr f) s).
Proof.
  unfold handleGenerate_resume, handleApplyMagicFill_resume,
         handleApplyFreestyle_resume.
  split; [apply sameCursor_generateDone|]. split.
  - eapply sameCursor_trans;
      [apply (sameCursor_clearMask cl) | apply sameCursor_fillDone].
  - eapply sameCursor_trans;
      [apply (sameCursor_clearMask cl) | apply sameCursor_loaded].
Qed.

(** An answer keeps the invariant even when its handler closed over an
    older render: the list and cursor it writes both come from there. *)
Lemma cursorInv_answers (cl s : AppState) (answer : Failure + File) :
  cursorInv cl -> cursorInv s ->
  cursorInv (handleGenerate_resume cl answer s)
  /\ cursorInv (handleApplyMagicFill_resume cl answer s)
  /\ cursorInv (handleApplyFreestyle_resume cl answer s).
Proof.
  intros [Hc _] Hs.
  destruct answer as [err | f].
  - unfold handleGenerate_resume, handleApplyMagicFill_resume,
           handleApplyFreestyle_resume.
    repeat split; apply Hs.
  - assert (Ha : cursorInv (addImageToHistory cl f s))
      by (apply cursorInv_addImageToHistory; lia).
    destruct (sameCursor_answers cl s f) as [Hg [Hm Hf]].
    split; [|split]; eapply sameCursor_inv; eauto.
Qed.

Lemma cursorInv_stepApp (past : list AppState) (s : AppState) (ev : AppEvent) :
  Forall cursorInv past -> cursorInv s ->
  cursorInv (stepApp strokePixel resample past s ev).
Proof.
  intros Hp Hs.
  pose proof (fun k => cursorInv_nth k Hp Hs) as Hcl.
  destruct ev; simpl.
  - destruct files as [[|f l]|]; simpl; auto using cursorInv_handleImageUpload.
  - apply cursorInv_handleUploadNew.
  - apply (@cursorInv_step s OpUndo Hs).
  - apply (@cursorInv_step s OpRedo Hs).
  - apply (@cursorInv_step s OpReset Hs).
  - exact Hs.
  - apply (sameCursor_inv (sameCursor_handleImageClick e s) Hs).
  - exact Hs.
  - exact Hs.
  - unfold handleSecondaryImageUpload. destruct (activeTab s); exact Hs.
  - exact Hs.
  - apply (sameCursor_inv (sameCursor_handleGenerate s) Hs).
  - apply (cursorInv_answers answer (Hcl render) Hs).
  - apply (sameCursor_inv (sameCursor_handleApplyMagicFill s) Hs).
  - apply (cursorInv_answers answer (Hcl render) Hs).
  - apply (sameCursor_inv (sameCursor_handleApplyFreestyle p s) Hs).
  - apply (cursorInv_answers answer (Hcl render) Hs).
  - apply (sameCursor_inv (sameCursor_stepMask s ev) Hs).
  - apply (sameCursor_inv (sameCursor_commitRender img fresh s) Hs).
Qed.

Lemma cursorInv_runApp (evs : list AppEvent) :
  forall (past : list AppState) (s : AppState),
    Forall cursorInv past -> cursorInv s ->
    cursorInv (runApp strokePixel resample evs past s).
Proof.
  induction evs as [|ev evs IH]; intros past s Hp Hs; simpl; [exact Hs|].
  apply IH.
  - constructor; assumption.
  - apply cursorInv_stepApp; assumption.
Qed.

(** X4: in every state the component can reach from its initial state,
    by any interleaving of uploads, history buttons, tab switches, image
    clicks, typing, submits, mask input, renders, and service answers
    resumed in any earlier render, the cursor is in [-1, length - 1], it
    is [-1] exactly when there is no snapshot, and there is a current
    image exactly when there is a snapshot. *)
Theorem reachable_cursor_invariant :
  forall evs : list AppEvent,
    let s := runApp strokePixel resample evs [] initialState in
    (-1 <= historyIndex s <= Z.of_nat (length (history s)) - 1)%Z
    /\ (historyIndex s = (-1)%Z <-> history s = [])
    /\ (currentImage s = None <-> history s = []).
Proof.
  intros evs s.
  assert (Hi : cursorInv s)
    by (apply cursorInv_runApp; [constructor | apply cursorInv_initial]).
  destruct Hi as [Hr He]. split; [exact Hr|]. split; [exact He|].
  unfold currentImage, JS.index. split.
  - intros Hn. apply He.
    destruct (historyIndex s <? 0)%Z eqn:E.
    + apply Z.ltb_lt in E. lia.
    + apply Z.ltb_ge in E. apply nth_error_None in Hn. lia.
  - intros Hn. apply He in Hn. rewrite Hn. reflexivity.
Qed.

End Reachable.

(** ** The hotspot stays on the image *)

Lemma Qfloor_unique (q : Q) (z : Z) :
  (inject_Z z <= q)%Q -> (q < inject_Z (z + 1))%Q -> Qfloor q = z.
Proof.
  intros Hlo Hhi.
  assert (H1 : (z <= Qfloor q)%Z).
  { rewrite <- (Qfloor_Z z). apply Qfloor_resp_le. exact Hlo. }
  assert (H2 : (Qfloor q < z + 1)%Z).
  { rewrite Zlt_Qlt. eapply Qle_lt_trans; [apply Qfloor_le | exact Hhi]. }
  lia.
Qed.

Lemma Math_round_inject (z : Z) : JS.Math_round (inject_Z z) = z.
Proof.
  unfold JS.Math_round. apply Qfloor_unique.
  - rewrite <- (Qplus_0_r (inject_Z z)) at 1.
    apply Qplus_le_compat; [apply Qle_refl | discriminate].
  - rewrite inject_Z_plus. apply Qplus_lt_r. reflexivity.
Qed.

Lemma scaled_within (x : Q) (n d : nat) :
  0 < d -> (0 <= x <= natQ d)%Q ->
  (0 <= JS.Math_round (x * (natQ n / natQ d)) <= Z.of_nat n)%Z.
Proof.
  intros Hd [H0 H1].
  assert (Hs : (0 <= natQ n / natQ d)%Q).
  { unfold Qdiv. apply Qmult_le_0_compat; [apply natQ_nonneg|].
    apply Qinv_le_0_compat, natQ_nonneg. }
  assert (Hdn : ~ (natQ d == 0)%Q).
  { intros H. unfold natQ, Qeq, inject_Z in H. simpl in H. lia. }
  split.
  - rewrite <- (Math_round_inject 0). apply Math_round_le.
    apply Qmult_le_0_compat; assumption.
  - apply Z.le_trans with (JS.Math_round (natQ n));
      [|unfold natQ; rewrite Math_round_inject; lia].
    apply Math_round_le.
    rewrite <- (Qmult_div_r (natQ n) (natQ d) Hdn) at 2.
    apply Qmult_le_compat_r; assumption.
Qed.

Lemma scaled_at_edge (x : Q) (n d : nat) :
  0 < d -> (x == natQ d)%Q ->
  JS.Math_round (x * (natQ n / natQ d)) = Z.of_nat n.
Proof.
  intros Hd Hx.
  assert (Hdn : ~ (natQ d == 0)%Q).
  { intros H. unfold natQ, Qeq, inject_Z in H. simpl in H. lia. }
  rewrite <- (Math_round_inject (Z.of_nat n)).
  unfold JS.Math_round. apply Qfloor_comp.
  rewrite Hx. rewrite (Qmult_div_r (natQ n) (natQ d) Hdn). reflexivity.
Qed.

(** X5: a click inside the displayed image (offset between 0 and the
    layout size on each axis) gives a hotspot between 0 and the native
    size, both ends included: a click on the right or bottom edge gives
    exactly [naturalWidth] or [naturalHeight]; the display hotspot is the
    offset itself. *)
Theorem hotspot_within_image :
  forall (e : ClickEvent) (s : AppState),
    let img := currentTarget e in
    activeTab s = Retouch ->
    0 < clientWidth img -> 0 < clientHeight img ->
    (0 <= clickOffsetX e <= natQ (clientWidth img))%Q ->
    (0 <= clickOffsetY e <= natQ (clientHeight img))%Q ->
    exists X Y : Z,
      editHotspot (handleImageClick e s) = Some (X, Y)
      /\ displayHotspot (handleImageClick e s)
         = Some (clickOffsetX e, clickOffsetY e)
      /\ (0 <= X <= Z.of_nat (naturalWidth img))%Z
      /\ (0 <= Y <= Z.of_nat (naturalHeight img))%Z
      /\ ((clickOffsetX e == natQ (clientWidth img))%Q ->
          X = Z.of_nat (naturalWidth img))
      /\ ((clickOffsetY e == natQ (clientHeight img))%Q ->
          Y = Z.of_nat (naturalHeight img)).
Proof.
  intros e s img Ht Hw Hh Hx Hy.
  unfold handleImageClick. rewrite Ht. fold img.
  eexists. eexists. split; [reflexivity|]. split; [reflexivity|].
  split; [apply scaled_within; assumption|].
  split; [apply scaled_within; assumption|].
  split; intros H; apply scaled_at_edge; assumption.
Qed.

Lemma hotspot_within_image_example :
  editHotspot (handleImageClick (mkClick 150 100 0 0 img300) initialState)
  = Some (300%Z, 200%Z).
Proof.
  destruct (@hotspot_within_image (mkClick 150 100 0 0 img300) initialState)
    as [X [Y [He [_ [_ [_ [HX HY]]]]]]];
    [ reflexivity | simpl; lia | simpl; lia
    | split; vm_compute; discriminate
    | split; vm_compute; discriminate | ].
  rewrite He. rewrite HX by reflexivity. rewrite HY by reflexivity.
  reflexivity.
Defined.

(** ** Point edit: after a successful answer *)





(** ** The masks sent to the service *)

Lemma markPainted_facts (v : N) (n : nat) :
  forall d : list N,
    length d < n ->
    length (markPainted v d) = length d
    /\ markPainted v (markPainted v d) = markPainted v d.
Proof.
  induction n as [|n IH]; intros d Hn; [lia|].
  destruct d as [|r [|g [|b [|a rest]]]]; try (split; reflexivity).
  simpl in Hn. destruct (IH rest) as [Hl Hi]; [lia|].
  simpl. destruct (0 <? a)%N eqn:Ea; simpl.
  - rewrite Hl, Hi. split; reflexivity.
  - rewrite Ea, Hl, Hi. split; reflexivity.
Qed.

(** X7: the thresholding loop keeps the length of the byte array,
    whatever that length is, and running it twice changes nothing more
    than running it once. *)
Theorem markPainted_idempotent :
  forall (v : N) (d : list N),
    length (markPainted v d) = length d
    /\ markPainted v (markPainted v d) = markPainted v d.
Proof.
  intros v d. apply (markPainted_facts v (n := S (length d))). lia.
Qed.

Lemma clearRect_wf (c : Canvas) : wfCanvas c -> wfCanvas (clearRect c).
Proof. unfold wfCanvas, clearRect. simpl. rewrite length_map. auto. Qed.

Lemma clearRect_unpainted (c : Canvas) (p : Pixel) :
  In p (pixels (clearRect c)) -> A p = 0%N.
Proof.
  unfold clearRect. simpl. rewrite in_map_iff.
  intros [q [Hq _]]. subst p. reflexivity.
Qed.

Section MaskFacts.

Variable resample : nat -> nat -> nat -> nat -> nat -> nat.

Lemma buildMask_unpainted (bg : Pixel) (v : N) (image : HTMLImage)
    (src : Canvas) :
  wfCanvas src ->
  (forall p, In p (pixels src) -> A p = 0%N) ->
  pixels (buildMask resample bg v image src)
  = repeat (source_over transparent (source_over bg transparent))
           (naturalWidth image * naturalHeight image).
Proof.
  intros Hwf Hclear.
  destruct (buildMask_shape resample bg v image src) as [_ [_ Hl]].
  apply list_eq_nth with (d := transparent).
  - rewrite repeat_length. exact Hl.
  - intros d Hd. rewrite Hl in Hd.
    destruct (@mask_pixel_cases resample bg v image src d Hwf Hd) as [_ H0].
    rewrite H0.
    + symmetry.
      rewrite nth_indep
        with (d' := source_over transparent (source_over bg transparent))
        by (rewrite repeat_length; exact Hd).
      apply nth_repeat_any.
    + destruct (nth_in_or_default
                  (resample (width src) (height src)
                            (naturalWidth image) (naturalHeight image) d)
                  (pixels src) transparent) as [Hin|Hdef].
      * apply Hclear. exact Hin.
      * rewrite Hdef. reflexivity.
Qed.



(** X9: with nothing painted the protect-mode mask is all white
    (everything may change), and once the surface has been cleared the
    fill-mode mask is all black and the protect-mode mask all white,
    whatever had been painted before. *)
Theorem cleared_surface_masks :
  forall (image : HTMLImage) (src : Canvas),
    wfCanvas src ->
    let n := naturalWidth image * naturalHeight image in
    ((forall p, In p (pixels src) -> A p = 0%N) ->
       pixels (freestyleMaskCanvas resample image src) = repeat white n)
    /\ pixels (magicFillMaskCanvas resample image (clearRect src))
       = repeat black n
    /\ pixels (freestyleMaskCanvas resample image (clearRect src))
       = repeat white n.
Proof.
  intros image src Hwf n. split; [|split].
  - intros Hclear.
    apply (buildMask_unpainted white 0 image Hwf Hclear).
  - apply (buildMask_unpainted black 255 image (clearRect_wf Hwf)
             (@clearRect_unpainted src)).
  - apply (buildMask_unpainted white 0 image (clearRect_wf Hwf)
             (@clearRect_unpainted src)).
Qed.

(** X10: [handleApplyMagicFill] refuses, with the paint-first message
    and no call, whenever no image is loaded, the mask canvas is not
    mounted or the paint flag is off; it returns silently, changing
    nothing, when only the image element is missing; otherwise it sends
    the current snapshot with a mask of the image's native size and the
    instruction exactly as typed, the empty instruction included. *)
Theorem handleApplyMagicFill_cases :
  forall s : AppState,
    (currentImage s = None \/ maskCanvasRef (magicFillMask s) = None
     \/ isMaskDrawn (magicFillMask s) = false ->
       handleApplyMagicFill resample s = (setError (Some ErrPaintFirst) s, None))
    /\ (forall image0 c,
          currentImage s = Some image0 ->
          maskCanvasRef (magicFillMask s) = Some c ->
          isMaskDrawn (magicFillMask s) = true ->
          (imgRef s = None -> handleApplyMagicFill resample s = (s, None))
          /\ (forall image, imgRef s = Some image ->
                exists mask,
                  handleApplyMagicFill resample s
                  = (setError None (setLoadingMessage (Some BusyMagicFill) s),
                     Some (generateMagicFillImage image0 mask
                             (magicFillPrompt s)))
                  /\ mask = magicFillMaskCanvas resample image c
                  /\ width mask = naturalWidth image
                  /\ height mask = naturalHeight image
                  /\ length (pixels mask)
                     = naturalWidth image * naturalHeight image)).
Proof.
  intros s. split.
  - intros H. unfold handleApplyMagicFill.
    destruct (currentImage s) as [i|]; [|reflexivity].
    destruct (maskCanvasRef (magicFillMask s)) as [c|]; [|reflexivity].
    destruct (isMaskDrawn (magicFillMask s)); [|reflexivity].
    destruct H as [H|[H|H]]; discriminate H.
  - intros image0 c Hc Hm Hd. unfold handleApplyMagicFill.
    rewrite Hc, Hm, Hd. split.
    + intros Hi. rewrite Hi. reflexivity.
    + intros image Hi. rewrite Hi. eexists. split; [reflexivity|].
      split; [reflexivity|]. apply buildMask_shape.
Qed.

End MaskFacts.


Lemma cleared_surface_masks_example :
  pixels (freestyleMaskCanvas nearest img4x2 (clearRect paintedSurface))
  = repeat white 8.
Proof.
  destruct (@cleared_surface_masks nearest img4x2 paintedSurface eq_refl)
    as [_ [_ H]].
  exact H.
Defined.

(** ** Renders and the mask canvases *)


(** ** The mask surface under any sequence of input *)

Lemma pop_nonempty {A} (l : list A) :
  l <> [] -> exists rest last, l = rest ++ [last] /\ JS.pop l = (rest, Some last).
Proof.
  intros Hne. destruct (exists_last Hne) as [rest [last Hl]].
  exists rest, last. split; [exact Hl|].
  rewrite Hl. apply (pop_push rest last).
Qed.

Lemma scanPaint_cleared (l : list Pixel) :
  scanPaint (map (fun _ => transparent) l) = false.
Proof.
  unfold scanPaint, JS.some. induction l as [|p l IH]; [reflexivity|].
  simpl. exact IH.
Qed.

Lemma putImageData_snapshot (img : ImageData) (c : Canvas) :
  snapshotOf (width c) (height c) img -> wfCanvas c ->
  wfCanvas (putImageData img c)
  /\ sameShape c (putImageData img c)
  /\ JS.some nonZero (data img) = scanPaint (pixels (putImageData img c)).
Proof.
  intros [c0 [Himg [Hwf0 [Hw Hh]]]] Hwf.
  assert (Hp : pixels (putImageData img c) = pixels c0).
  { rewrite Himg. apply putImageData_getImageData; auto. }
  assert (Hs : sameShape c (putImageData img c)).
  { unfold sameShape, putImageData. rewrite blit_length.
    cbn [width height blit]. auto. }
  split; [apply (sameShape_wf Hs Hwf)|]. split; [exact Hs|].
  rewrite Hp, Himg. reflexivity.
Qed.

Lemma maskInv_set (s : AppState) (m' : MaskState) (c' : Canvas) :
  isMaskTab (activeTab s) = true ->
  loadingMessage s = None ->
  maskCanvasRef m' = Some c' ->
  wfCanvas c' ->
  canUndoMask m' = (0 <? length (maskHistoryRef m')) ->
  Forall (snapshotOf (width c') (height c')) (maskHistoryRef m') ->
  (isDrawingRef m' = false -> isMaskDrawn m' = scanPaint (pixels c')) ->
  maskInv (setMaskOf (activeTab s) m' s) c'.
Proof.
  intros Ht Hl Hc Hwf Hu Hf Hd.
  unfold maskInv, maskReady, maskSurface.
  rewrite activeTab_setMaskOf, maskOf_setMaskOf, loadingMessage_setMaskOf.
  repeat split; assumption.
Qed.

Lemma snapshotOf_getImageData (c : Canvas) :
  wfCanvas c -> snapshotOf (width c) (height c) (getImageData c).
Proof. intros Hwf. exists c. repeat split; auto. Qed.

Section MaskMachine.

Variable strokePixel :
  StrokeSettings -> list (Q * Q) -> nat -> nat -> nat -> Pixel -> Pixel.

Lemma maskInv_step (s : AppState) (c : Canvas) (ev : MaskEvent) :
  maskInv s c ->
  exists c', maskInv (stepMask strokePixel s ev) c' /\ sameShape c c'.
Proof.
  intros Hinv. pose proof Hinv as [[Ht [Hl [Hc Hwf]]] [Hu [Hf Hd]]].
  unfold maskSurface in Hc. destruct ev; simpl.
  - (* pointer down *)
    unfold startDrawing, getCoords. rewrite Hl, Ht, Hc. simpl orb. cbv iota.
    destruct (nativeEvent e) as [cx cy | [tx ty] others];
      (eexists; split; [|split; [|split]];
       [ apply maskInv_set;
         [ exact Ht | exact Hl | reflexivity | exact Hwf
         | cbn; unfold JS.push; rewrite length_app, Nat.add_1_r; reflexivity
         | cbn; unfold JS.push; apply Forall_app; split;
           [ exact Hf
           | constructor; [apply snapshotOf_getImageData; exact Hwf
                          | constructor] ]
         | cbn; discriminate ]
       | reflexivity | reflexivity | reflexivity ]).
  - (* pointer move *)
    unfold draw, getCoords. rewrite Hc.
    destruct (isDrawingRef (maskOf (activeTab s) s)) eqn:Edraw.
    + destruct (nativeEvent e) as [cx cy | [tx ty] others];
        (eexists; split; [|split; [|split]];
         [ apply maskInv_set;
           [ exact Ht | exact Hl | reflexivity
           | unfold wfCanvas, stroke; cbn [pixels width height];
             rewrite mapi_length; exact Hwf
           | exact Hu
           | exact Hf
           | cbn; rewrite Edraw; discriminate ]
         | reflexivity | reflexivity
         | unfold stroke; cbn [pixels]; apply mapi_length ]).
    + exists c. split; [exact Hinv | apply sameShape_refl].
  - (* pointer up *)
    unfold stopDrawing. rewrite Hc.
    destruct (isDrawingRef (maskOf (activeTab s) s)) eqn:Edraw.
    + eexists. split; [|split; [|split]];
        [ apply maskInv_set;
          [ exact Ht | exact Hl | reflexivity | exact Hwf
          | exact Hu | exact Hf | reflexivity ]
        | reflexivity | reflexivity | reflexivity ].
    + exists c. split; [exact Hinv | apply sameShape_refl].
  - (* undo stroke *)
    unfold undoMaskStroke. rewrite Hc.
    destruct (maskHistoryRef (maskOf (activeTab s) s)) as [|i0 st] eqn:Est.
    + simpl. exists c. split; [exact Hinv | apply sameShape_refl].
    + destruct (@pop_nonempty _ (i0 :: st)) as [rest [last [Hl2 Hpop]]];
        [discriminate|].
      replace (0 <? length (i0 :: st)) with true by reflexivity.
      rewrite Hpop. rewrite Hl2 in Hf. apply Forall_app in Hf.
      destruct Hf as [Hrest Hlast]. inversion Hlast as [|x l Hsnap _]; subst.
      destruct (putImageData_snapshot Hsnap Hwf) as [Hwf' [Hs' Hscan]].
      exists (putImageData last c). split; [|exact Hs'].
      apply maskInv_set;
        [ exact Ht | exact Hl | reflexivity | exact Hwf' | reflexivity | | ].
      * exact Hrest.
      * intros _. exact Hscan.
  - (* clear mask *)
    unfold clearMask. rewrite Hc.
    exists (clearRect c). split.
    + apply maskInv_set;
        [ exact Ht | exact Hl | reflexivity | apply clearRect_wf; exact Hwf
        | reflexivity | constructor | ].
      intros _. symmetry. apply scanPaint_cleared.
    + unfold sameShape, clearRect. cbn. rewrite length_map. repeat split.
Qed.

Lemma maskInv_run (evs : list MaskEvent) :
  forall (s : AppState) (c : Canvas),
    maskInv s c ->
    exists c', maskInv (runMask strokePixel evs s) c' /\ sameShape c c'.
Proof.
  induction evs as [|ev evs IH]; intros s c Hinv; simpl.
  - exists c. split; [exact Hinv | apply sameShape_refl].
  - destruct (maskInv_step ev Hinv) as [c1 [H1 Hs1]].
    destruct (IH _ _ H1) as [c2 [H2 Hs2]].
    exists c2. split; [exact H2 | eapply sameShape_trans; eassumption].
Qed.

(** X12: on a mounted mask surface, through any sequence of pointer
    down, move and up, undo-stroke and clear, the surface keeps its size
    and stays well formed; the undo flag is set exactly when the stroke
    stack is non-empty; every stacked snapshot has the surface's size;
    and whenever no stroke is in progress the paint flag is set exactly
    when some channel byte of the surface is non-zero. *)
Theorem mask_surface_invariant :
  forall (s : AppState) (c : Canvas) (evs : list MaskEvent),
    maskInv s c ->
    let s' := runMask strokePixel evs s in
    exists c',
      maskSurface s' = Some c'
      /\ width c' = width c /\ height c' = height c /\ wfCanvas c'
      /\ (canUndoMask (maskOf (activeTab s') s') = true <-> strokeStack s' <> [])
      /\ Forall (fun img => iwidth img = width c /\ iheight img = height c
                            /\ length (data img) = 4 * (width c * height c))
                (strokeStack s')
      /\ (isDrawingRef (maskOf (activeTab s') s') = false ->
          (hasPaint s' = true <-> someChannel c'))
      /\ maskInv s' c'.
Proof.
  intros s c evs Hinv s'.
  destruct (maskInv_run evs Hinv) as [c' [Hinv' [Hw [Hh _]]]].
  fold s' in Hinv'. exists c'.
  pose proof Hinv' as [[Ht [Hl [Hc Hwf]]] [Hu [Hf Hd]]].
  split; [exact Hc|]. split; [exact Hw|]. split; [exact Hh|].
  split; [exact Hwf|]. split; [|split; [|split; [|exact Hinv']]].
  - unfold strokeStack. rewrite Hu.
    destruct (maskHistoryRef (maskOf (activeTab s') s')); simpl; split;
      intros H; try discriminate; try reflexivity; congruence.
  - unfold strokeStack. eapply Forall_impl; [|exact Hf].
    intros img [c0 [Himg [Hwf0 [Hw0 Hh0]]]]. subst img. simpl.
    split; [congruence|]. split; [congruence|].
    rewrite <- Hw, <- Hh, <- Hw0, <- Hh0. unfold wfCanvas in Hwf0.
    rewrite <- Hwf0. clear. induction (pixels c0) as [|p l IH]; [reflexivity|].
    simpl. rewrite IH. lia.
  - intros Hidle. unfold hasPaint. rewrite (Hd Hidle).
    apply some_nonZero_flat.
Qed.

End MaskMachine.

Lemma mask_surface_invariant_example :
  maskInv paintingState (createCanvas 2 1)
  /\ exists c',
       maskSurface
         (runMask floodStroke
            [PointerDown (pointerAt 0 0); PointerMove (pointerAt 1 0);
             PointerUp; UndoStrokeClicked; ClearMaskClicked]
            paintingState) = Some c'
       /\ width c' = 2.
Proof.
  assert (Hinv : maskInv paintingState (createCanvas 2 1)).
  { unfold maskInv, maskReady. simpl. repeat split; try reflexivity.
    constructor. }
  split; [exact Hinv|].
  destruct (@mask_surface_invariant floodStroke paintingState
              (createCanvas 2 1)
              [PointerDown (pointerAt 0 0); PointerMove (pointerAt 1 0);
               PointerUp; UndoStrokeClicked; ClearMaskClicked] Hinv)
    as [c' [Hc [Hw _]]].
  exists c'. split; [exact Hc | exact Hw].
Defined.

(** ** Error messages *)

Local Open Scope string_scope.

Lemma startsWith_spec (p s : string) :
  JSString.startsWith s p = true <-> exists post, s = p ++ post.
Proof.
  revert s. induction p as [|a p IH]; intros s; simpl.
  - split; [intros _; exists s; reflexivity | reflexivity].
  - destruct s as [|b s].
    + split; [discriminate | intros [post H]; discriminate H].
    + rewrite andb_true_iff, Ascii.eqb_eq, IH. split.
      * intros [Hab [post Hs]]. exists post. subst. reflexivity.
      * intros [post H]. inversion H. split; [reflexivity|]. exists post.
        reflexivity.
Qed.

Lemma includes_spec (s p : string) :
  JSString.includes s p = true <-> exists pre post, s = pre ++ p ++ post.
Proof.
  induction s as [|c s IH]; simpl.
  - rewrite orb_false_r, startsWith_spec. split.
    + intros [post H]. exists "", post. exact H.
    + intros [pre [post H]]. destruct pre as [|x pre]; [|discriminate H].
      exists post. exact H.
  - rewrite orb_true_iff, startsWith_spec, IH. split.
    + intros [[post H] | [pre [post H]]].
      * exists "", post. exact H.
      * exists (String c pre), post. simpl. rewrite H. reflexivity.
    + intros [pre [post H]]. destruct pre as [|x pre].
      * left. exists post. exact H.
      * right. simpl in H. inversion H. exists pre, post. reflexivity.
Qed.

Lemma toLowerCase_app (a b : string) :
  JSString.toLowerCase (a ++ b)
  = JSString.toLowerCase a ++ JSString.toLowerCase b.
Proof.
  induction a as [|c a IH]; simpl; [reflexivity|]. rewrite IH. reflexivity.
Qed.

Lemma toLowerCase_split (a b m : string) :
  JSString.toLowerCase m = a ++ b ->
  exists a' b', m = a' ++ b'
                /\ JSString.toLowerCase a' = a /\ JSString.toLowerCase b' = b.
Proof.
  revert m. induction a as [|c a IH]; intros m H.
  - exists "", m. repeat split. exact H.
  - destruct m as [|x m]; [discriminate H|]. simpl in H.
    injection H as Hc Hr.
    destruct (IH m Hr) as [a' [b' [Hm [Ha Hb]]]].
    exists (String x a'), b'.
    split; [simpl; f_equal; exact Hm|].
    split; [simpl; rewrite Ha, Hc; reflexivity | exact Hb].
Qed.

(** The formatter's test, lower-casing first and then searching, finds
    exactly the occurrences up to letter case. *)
Lemma includes_toLowerCase (m w : string) :
  JSString.includes (JSString.toLowerCase m) w = true <-> containsCI m w.
Proof.
  rewrite includes_spec. unfold containsCI. split.
  - intros [pre [post H]].
    destruct (toLowerCase_split _ _ _ H) as [pre' [rest [Hm [_ Hrest]]]].
    destruct (toLowerCase_split _ _ _ Hrest) as [mid [post' [Hr [Hmid _]]]].
    exists pre', mid, post'. subst. split; reflexivity.
  - intros [pre [mid [post [Hm Hmid]]]].
    exists (JSString.toLowerCase pre), (JSString.toLowerCase post).
    rewrite Hm, !toLowerCase_app, Hmid. reflexivity.
Qed.

Lemma includes_false (m w : string) :
  JSString.includes (JSString.toLowerCase m) w = false <-> ~ containsCI m w.
Proof.
  split.
  - intros Hf Hc. apply includes_toLowerCase in Hc. congruence.
  - intros Hn.
    destruct (JSString.includes (JSString.toLowerCase m) w) eqn:E;
      [|reflexivity].
    exfalso. apply Hn, includes_toLowerCase, E.
Qed.

(** X13: for an ASCII message, [formatErrorMessage] shows the policy
    text whenever the message mentions "blocked" or "safety" in any
    letter case, even if it also says that no image was returned;
    otherwise the no-result text when it mentions "did not return an
    image" in any letter case; otherwise the context, the failure marker
    and the message itself, in its original case.  The first two texts do
    not show the service's message at all. *)
Theorem formatErrorMessage_classes :
  forall message context : string,
    isAscii message = true ->
    let shown := formatErrorMessage (ErrorObject message) context in
    (containsCI message "blocked" \/ containsCI message "safety" ->
       shown = blockedMessage context)
    /\ (~ containsCI message "blocked" -> ~ containsCI message "safety" ->
        (containsCI message "did not return an image" ->
           shown = noResultMessage context)
        /\ (~ containsCI message "did not return an image" ->
           shown = failedMessage context message)).
Proof.
  intros message context _ shown. subst shown. unfold formatErrorMessage.
  split.
  - intros [H|H]; apply includes_toLowerCase in H; rewrite H;
      rewrite ?orb_true_r; reflexivity.
  - intros Hb Hs. apply includes_false in Hb. apply includes_false in Hs.
    rewrite Hb, Hs. simpl. split; intros H.
    + apply includes_toLowerCase in H. rewrite H. reflexivity.
    + apply includes_false in H. rewrite H. reflexivity.
Qed.

Lemma formatErrorMessage_classes_example :
  formatErrorMessage
    (ErrorObject "The model did not return an image: BLOCKED by Safety filter")
    (contextText CtxRetouch)
  = blockedMessage (contextText CtxRetouch).
Proof.
  apply (formatErrorMessage_classes
           "The model did not return an image: BLOCKED by Safety filter"
           (contextText CtxRetouch) eq_refl).
  left. exists "The model did not return an image: ", "BLOCKED",
               " by Safety filter".
  split; reflexivity.
Defined.

Local Close Scope string_scope.

(** ** Decoding a data URL *)

Local Open Scope string_scope.

Lemma split_no_separator (s : string) :
  noneOf isComma s = true -> JSString.split "," s = [s].
Proof.
  induction s as [|c s IH]; simpl; [reflexivity|].
  intros H. apply andb_true_iff in H. destruct H as [Hc Hs].
  unfold isComma in Hc. apply negb_true_iff in Hc. rewrite Hc.
  rewrite (IH Hs). reflexivity.
Qed.

Lemma split_at_separator (a b : string) :
  noneOf isComma a = true ->
  JSString.split "," (a ++ String "," b) = a :: JSString.split "," b.
Proof.
  induction a as [|c a IH]; simpl; [reflexivity|].
  intros H. apply andb_true_iff in H. destruct H as [Hc Hs].
  unfold isComma in Hc. apply negb_true_iff in Hc. rewrite Hc.
  rewrite (IH Hs). reflexivity.
Qed.

Lemma split_nonempty (s : string) : JSString.split "," s <> [].
Proof.
  destruct s as [|c s]; simpl; [discriminate|].
  destruct (Ascii.eqb c ","); [discriminate|].
  destruct (JSString.split "," s); discriminate.
Qed.


Lemma matchMime_first_colon (pre r g : string) :
  noneOf isColon pre = true ->
  lazyUntilSemicolon r = Some g ->
  matchMime (pre ++ String ":" r) = Some g.
Proof.
  intros Hp Hr. induction pre as [|c pre IH]; simpl.
  - rewrite Hr. reflexivity.
  - simpl in Hp. apply andb_true_iff in Hp. destruct Hp as [Hc Hp].
    unfold isColon in Hc. apply negb_true_iff in Hc. rewrite Hc.
    apply IH, Hp.
Qed.

Lemma matchMime_no_colon (s : string) :
  noneOf isColon s = true -> matchMime s = None.
Proof.
  induction s as [|c s IH]; simpl; [reflexivity|].
  intros H. apply andb_true_iff in H. destruct H as [Hc Hs].
  unfold isColon in Hc. apply negb_true_iff in Hc. rewrite Hc.
  apply IH, Hs.
Qed.








Lemma noneOf_app (p : ascii -> bool) (a b : string) :
  noneOf p (a ++ b) = noneOf p a && noneOf p b.
Proof.
  induction a as [|x a IH]; simpl; [reflexivity|].
  rewrite IH. apply andb_assoc.
Qed.

Section DecoderFacts.

Variable atob : string -> Failure + string.


(** X15: [dataURLtoFile] refuses a string without a comma as an invalid
    data URL, and refuses as an unparsable type a URL whose part before
    the first comma has no colon, or has a semicolon right after its
    first colon; the decoder is not consulted in any of these cases. *)
Theorem dataURLtoFile_rejects :
  forall dataurl filename : string,
    (noneOf isComma dataurl = true ->
       dataURLtoFile atob dataurl filename = inl "Invalid data URL")
    /\ (forall header rest,
          dataurl = header ++ String "," rest ->
          noneOf isComma header = true ->
          noneOf isColon header = true ->
          dataURLtoFile atob dataurl filename
          = inl "Could not parse MIME type from data URL")
    /\ (forall pre tail rest,
          dataurl = (pre ++ String ":" (String ";" tail)) ++ String "," rest ->
          noneOf isComma pre = true -> noneOf isColon pre = true ->
          noneOf isComma tail = true ->
          dataURLtoFile atob dataurl filename
          = inl "Could not parse MIME type from data URL").
Proof.
  intros dataurl filename. split; [|split].
  - intros H. unfold dataURLtoFile. rewrite (@split_no_separator dataurl H).
    reflexivity.
  - intros header rest Hd Hc Hn. subst dataurl. unfold dataURLtoFile.
    rewrite (@split_at_separator header rest Hc).
    destruct (JSString.split "," rest) as [|r rs] eqn:E;
      [exfalso; exact (@split_nonempty rest E)|].
    simpl length. simpl Nat.ltb. cbv iota. simpl nth.
    rewrite (@matchMime_no_colon header Hn). reflexivity.
  - intros pre tail rest Hd Hc Hn Ht. subst dataurl. unfold dataURLtoFile.
    rewrite split_at_separator.
    + destruct (JSString.split "," rest) as [|r rs] eqn:E;
        [exfalso; exact (@split_nonempty rest E)|].
      simpl length. simpl Nat.ltb. cbv iota. simpl nth.
      rewrite (@matchMime_first_colon pre (String ";" tail) "" Hn eq_refl).
      reflexivity.
    + rewrite noneOf_app, Hc. simpl. exact Ht.
Qed.

End DecoderFacts.


Local Close Scope string_scope.

(** ** The panels *)

Lemma activePrompt_step (st : FilterPanel.State) (ev : FilterPanel.Event) :
  FilterPanel.activePrompt (FilterPanel.step st ev)
  = FilterPanel.lastChoice [ev] (FilterPanel.activePrompt st).
Proof.
  destruct ev as [p | v | q]; simpl; unfold FilterPanel.activePrompt; simpl.
  - destruct p; reflexivity.
  - reflexivity.
  - reflexivity.
Qed.

Lemma activePrompt_run (evs : list FilterPanel.Event) :
  forall st : FilterPanel.State,
    FilterPanel.activePrompt (FilterPanel.run evs st)
    = FilterPanel.lastChoice evs (FilterPanel.activePrompt st).
Proof.
  induction evs as [|ev evs IH]; intros st; [reflexivity|].
  unfold FilterPanel.run, FilterPanel.lastChoice in *. simpl fold_left.
  rewrite IH. f_equal. apply activePrompt_step.
Qed.

Lemma filter_exclusive_run (evs : list FilterPanel.Event) :
  forall st : FilterPanel.State,
    FilterPanel.selectedPresetPrompt st = None
    \/ FilterPanel.customPrompt st = EmptyString ->
    FilterPanel.selectedPresetPrompt (FilterPanel.run evs st) = None
    \/ FilterPanel.customPrompt (FilterPanel.run evs st) = EmptyString.
Proof.
  induction evs as [|ev evs IH]; intros st H; [exact H|].
  unfold FilterPanel.run in *. simpl fold_left. apply IH.
  destruct ev; simpl; auto.
Qed.

(** X16: in the filter panel, after any sequence of preset clicks,
    typing in the custom field and typing in the search field, the
    active prompt is the preset or custom text chosen last (the search
    field never affects it), a preset and a custom text are never both
    set, and apply hands exactly that prompt to the component, or
    nothing when it is empty. *)
Theorem filter_panel_last_choice :
  forall evs : list FilterPanel.Event,
    let st := FilterPanel.run evs FilterPanel.initial in
    let chosen := FilterPanel.lastChoice evs EmptyString in
    FilterPanel.activePrompt st = chosen
    /\ (FilterPanel.selectedPresetPrompt st = None
        \/ FilterPanel.customPrompt st = EmptyString)
    /\ FilterPanel.handleApply st
       = (if JS.truthy chosen then Some chosen else None).
Proof.
  intros evs st chosen.
  assert (Ha : FilterPanel.activePrompt st = chosen)
    by (apply (activePrompt_run evs FilterPanel.initial)).
  split; [exact Ha|]. split.
  - apply filter_exclusive_run. left. reflexivity.
  - unfold FilterPanel.handleApply. rewrite Ha. reflexivity.
Qed.

Section PanelFacts.

Variable resample : nat -> nat -> nat -> nat -> nat -> nat.


End PanelFacts.

(** ** Mask fill: the answer arrives under the loading overlay *)

Lemma magicFillMask_appended (cl r : AppState) (f : File) :
  magicFillMask (addImageToHistory cl f r) = magicFillMask r.
Proof. reflexivity. Qed.

Lemma magicFillMask_loading (img : HTMLImage) (fresh : Canvas) (s : AppState)
    (b : Busy) :
  loadingMessage s = Some b ->
  magicFillMask (commitRender img fresh s)
  = withMaskCanvasRef None (magicFillMask s).
Proof.
  intros Hl. unfold commitRender, attach, maskCanvasShown, isNone.
  rewrite Hl. simpl isSome. simpl negb. rewrite !andb_false_r. reflexivity.
Qed.

(** The state a successful mask-fill answer leaves, in terms of the
    state after the append and the clearing. *)
Lemma magicFill_answer_fields (a : AppState) :
  currentImage (setLoadingMessage None (setMagicFillPrompt EmptyString a))
  = currentImage a
  /\ magicFillPrompt (setLoadingMessage None (setMagicFillPrompt EmptyString a))
     = EmptyString
  /\ loadingMessage (setLoadingMessage None (setMagicFillPrompt EmptyString a))
     = None
  /\ magicFillMask (setLoadingMessage None (setMagicFillPrompt EmptyString a))
     = magicFillMask a.
Proof. repeat split. Qed.

(** X18: when the answer to a mask-fill request arrives while the
    loading overlay is shown, the new snapshot becomes the current image,
    the instruction field is emptied and the loading message cleared,
    but [clearMask] finds no canvas: the fill mask's paint flag, stroke
    stack and undo flag are left exactly as they were. *)
Theorem magicFill_answer_under_overlay :
  forall (cl s : AppState) (img : HTMLImage) (fresh : Canvas) (b : Busy)
         (f : File),
    activeTab cl = Magicfill ->
    (-1 <= historyIndex cl)%Z ->
    loadingMessage s = Some b ->
    let s' := handleApplyMagicFill_resume cl (inr f)
                (commitRender img fresh s) in
    currentImage s' = Some f
    /\ magicFillPrompt s' = EmptyString
    /\ loadingMessage s' = None
    /\ isMaskDrawn (magicFillMask s') = isMaskDrawn (magicFillMask s)
    /\ maskHistoryRef (magicFillMask s') = maskHistoryRef (magicFillMask s)
    /\ canUndoMask (magicFillMask s') = canUndoMask (magicFillMask s).
Proof.
  intros cl s img fresh b f Ht Hc Hl. cbv zeta.
  unfold handleApplyMagicFill_resume.
  assert (Hmask : magicFillMask (addImageToHistory cl f (commitRender img fresh s))
                  = withMaskCanvasRef None (magicFillMask s)).
  { rewrite magicFillMask_appended. apply (@magicFillMask_loading img fresh s b Hl). }
  rewrite clearMask_unmounted
    by (rewrite Ht; unfold maskOf; rewrite Hmask; reflexivity).
  destruct (magicFill_answer_fields
              (addImageToHistory cl f (commitRender img fresh s)))
    as [H1 [H2 [H3 H4]]].
  rewrite H1, H2, H3, H4, Hmask.
  split; [apply currentImage_appended; exact Hc|].
  repeat split.
Qed.

Lemma magicFill_answer_under_overlay_example :
  isMaskDrawn
    (magicFillMask
       (handleApplyMagicFill_resume tintedState (inr fileD)
          (commitRender img4x2 (createCanvas 2 1)
             (setLoadingMessage (Some BusyMagicFill)
                (setMagicFillMask
                   (mkMask 30 false true (Some paintedSurface) false
                           [getImageData (createCanvas 2 1)] true)
                   tintedState)))))
  = true.
Proof.
  destruct (@magicFill_answer_under_overlay tintedState
              (setLoadingMessage (Some BusyMagicFill)
                 (setMagicFillMask
                    (mkMask 30 false true (Some paintedSurface) false
                            [getImageData (createCanvas 2 1)] true)
                    tintedState))
              img4x2 (createCanvas 2 1) BusyMagicFill fileD)
    as [_ [_ [_ [H _]]]]; [reflexivity | simpl; lia | reflexivity |].
  rewrite H. reflexivity.
Defined.

(** ** Answers and what the user did meanwhile *)

(** X19: a successful answer writes the snapshot list and the cursor
    from the render its handler was created in: whatever the user did to
    the history while the request was loading (undo, redo, reset, even
    starting over with a new upload) is overwritten; the history becomes
    that render's snapshots up to its cursor followed by the new image,
    with the cursor on the new image. *)
Theorem answer_overwrites_navigation :
  forall (cl s : AppState) (f : File),
    (-1 <= historyIndex cl)%Z ->
    let kept := firstn (Z.to_nat (historyIndex cl + 1)) (history cl) in
    (history (handleGenerate_resume cl (inr f) s) = kept ++ [f]
     /\ historyIndex (handleGenerate_resume cl (inr f) s)
        = Z.of_nat (length kept))
    /\ (history (handleApplyMagicFill_resume cl (inr f) s) = kept ++ [f]
        /\ historyIndex (handleApplyMagicFill_resume cl (inr f) s)
           = Z.of_nat (length kept))
    /\ (history (handleApplyFreestyle_resume cl (inr f) s) = kept ++ [f]
        /\ historyIndex (handleApplyFreestyle_resume cl (inr f) s)
           = Z.of_nat (length kept)).
Proof.
  intros cl s f Hc kept.
  destruct (addImageToHistory_closure cl s f Hc) as [Hh Hi].
  fold kept in Hh, Hi.
  destruct (sameCursor_answers cl s f) as [[Hg1 Hg2] [[Hm1 Hm2] [Hf1 Hf2]]].
  rewrite Hg1, Hg2, Hm1, Hm2, Hf1, Hf2.
  repeat split; assumption.
Qed.

Lemma answer_overwrites_navigation_example :
  history (handleGenerate_resume stateABC (inr fileD)
             (handleUploadNew stateABC))
  = [fileA; fileB; fileD].
Proof.
  destruct (@answer_overwrites_navigation stateABC
              (handleUploadNew stateABC) fileD) as [[H _] _];
    [simpl; lia|].
  rewrite H. reflexivity.
Defined.
